(** * migrate_imports.py: the import-migration script of [frontend/]

    A shallow embedding of [frontend/migrate_imports.py] and the
    properties of its rule table, its substitution loops, its directory
    walk and its per-file error handling.

    Layout: text and the fragment of Python's [re] the script relies on;
    the rule table; the file system and the [IO] monad of the script;
    [process_file], [find_rust_files] and [main]; then the lemmas. *)

From Stdlib Require Import String Ascii NArith Arith Bool Lia List.
Import ListNotations.

(* ================================================================= *)
(** ** Text *)

(** A Python [str] is a sequence of Unicode code points. *)
Definition char := N.
Definition str := list char.

(** The code points of a string literal of the script (all ASCII). *)
Definition lit (s : string) : str := map N_of_ascii (list_ascii_of_string s).

Definition str_eq_dec : forall a b : str, {a = b} + {a <> b} :=
  list_eq_dec N.eq_dec.

Definition str_eqb (a b : str) : bool :=
  if str_eq_dec a b then true else false.

(** [s.startswith(p)] *)
Fixpoint startswith (s p : str) {struct p} : bool :=
  match p, s with
  | [], _ => true
  | _ :: _, [] => false
  | c :: p', x :: s' => N.eqb c x && startswith s' p'
  end.

(** [s.endswith(p)] *)
Definition endswith (s p : str) : bool := startswith (rev s) (rev p).

(** [p in s]: [p] occurs in [s] as a substring. *)
Fixpoint contains (s p : str) : bool :=
  startswith s p ||
  match s with
  | [] => false
  | _ :: s' => contains s' p
  end.

(** [s.replace(p, r)] for a non-empty [p]: the leftmost occurrence is
    replaced and the scan resumes after it.  [skip] counts the characters
    of the current occurrence still to be dropped. *)
Fixpoint replace_from (p r : str) (skip : nat) (s : str) : str :=
  match s with
  | [] => []
  | c :: s' =>
      match skip with
      | S k => replace_from p r k s'
      | O =>
          if startswith s p
          then r ++ replace_from p r (length p - 1) s'
          else c :: replace_from p r 0 s'
      end
  end.

(** [s.replace(p, r)]; with an empty [p] Python puts [r] around every
    character. *)
Definition replace_all (p r s : str) : str :=
  match p with
  | [] => r ++ flat_map (fun c => c :: r) s
  | _ :: _ => replace_from p r 0 s
  end.

(** Number of positions of [s] at which [p] occurs. *)
Fixpoint occ_count (p s : str) : nat :=
  (if startswith s p then 1 else 0) +
  match s with
  | [] => 0
  | _ :: s' => occ_count p s'
  end.

(** [sep.join(pieces)] *)
Fixpoint join (sep : str) (pieces : list str) : str :=
  match pieces with
  | [] => []
  | [g] => g
  | g :: rest => g ++ sep ++ join sep rest
  end.

(** [p] occurs in [s]. *)
Definition occurs (p s : str) : Prop := exists a b, s = a ++ p ++ b.

(** [a] and [b] are the same as far as both go. *)
Fixpoint agree (a b : str) : bool :=
  match a, b with
  | x :: a', y :: b' => N.eqb x y && agree a' b'
  | _, _ => true
  end.

(** No occurrence of [q] can share a character with an occurrence of [r],
    nor contain one or lie inside one: every way of laying [q] over [r]
    with at least one common position disagrees somewhere.  [k] is the
    number of characters of [q] before the start of [r] (first test) or
    of [r] before the start of [q] (second test). *)
Definition apart (q r : str) : bool :=
  negb (str_eqb q []) && negb (str_eqb r []) &&
  forallb (fun k => negb (agree (skipn k q) r)) (seq 0 (length q)) &&
  forallb (fun k => negb (agree (skipn k r) q)) (seq 0 (length r)).

(** [p] cannot overlap a shifted copy of itself. *)
Definition unbordered (p : str) : bool :=
  negb (str_eqb p []) &&
  forallb (fun k => negb (agree (skipn k p) p)) (seq 1 (length p - 1)).

(* ================================================================= *)
(** ** Exceptions *)

Inductive exn :=
| re_error             (* re.error: the pattern or template is rejected *)
| FileNotFoundError
| IsADirectoryError
| PermissionError
| UnicodeDecodeError
| UnicodeEncodeError.

Inductive result (A : Type) :=
| Ok (a : A)
| Raise (e : exn).
Arguments Ok {A} a.
Arguments Raise {A} e.

(* ================================================================= *)
(** ** The fragment of [re] used by the script

    [re.search] and [re.sub] are library functions; the script hands them
    its patterns uncompiled, so what a pattern means is decided by the
    pattern parser of [re].  The model covers literal characters, [.],
    the greedy repeats [*], [+], [?], alternation, groups and escaped
    punctuation, with the backtracking order of [re]; sets, counted
    repeats, anchors, lazy repeats, class escapes and group references are
    reported as [None]. *)

Module Re.

Inductive regex :=
| Eps
| Chr (c : char)
| Any
| Seq (a b : regex)
| Alt (a b : regex)
| Star (a : regex).

Definition ch (a : string) : char :=
  match a with
  | String c _ => N_of_ascii c
  | EmptyString => 0%N
  end.

(** The special characters of [re]'s pattern syntax. *)
Definition is_meta (c : char) : bool :=
  existsb (N.eqb c) (lit ".^$*+?{}[]\|()").

Definition is_alnum (c : char) : bool :=
  ((48 <=? c) && (c <=? 57) || (65 <=? c) && (c <=? 90) ||
   (97 <=? c) && (c <=? 122))%N.

(** One nesting level of the parser: the alternatives already closed by a
    [|] and the items of the current one, both latest first. *)
Record frame := mkFrame { alts : list regex; cur : list regex }.

Definition seq_of (items : list regex) : regex :=
  fold_left (fun acc a => Seq a acc) items Eps.

Definition close_frame (f : frame) : regex :=
  fold_left (fun acc a => Alt a acc) (alts f) (seq_of (cur f)).

Definition push (a : regex) (f : frame) : frame :=
  mkFrame (alts f) (a :: cur f).

(** Apply a repeat to the last item; [rep] says the last item is already
    a repeat. *)
Definition repeat_last (q : regex -> regex) (rep : bool) (f : frame)
  : option frame :=
  match rep, cur f with
  | false, a :: items => Some (mkFrame (alts f) (q a :: items))
  | _, _ => None
  end.

Fixpoint parse_loop (pat : str) (esc rep : bool) (f : frame)
  (stack : list frame) : option regex :=
  match pat with
  | [] =>
      match esc, stack with
      | false, [] => Some (close_frame f)
      | _, _ => None
      end
  | c :: pat' =>
      if esc then
        if is_alnum c then None
        else parse_loop pat' false false (push (Chr c) f) stack
      else if N.eqb c (ch "\") then parse_loop pat' true false f stack
      else if N.eqb c (ch ".") then
        parse_loop pat' false false (push Any f) stack
      else if N.eqb c (ch "*") then
        match repeat_last Star rep f with
        | Some f' => parse_loop pat' false true f' stack
        | None => None
        end
      else if N.eqb c (ch "+") then
        match repeat_last (fun a => Seq a (Star a)) rep f with
        | Some f' => parse_loop pat' false true f' stack
        | None => None
        end
      else if N.eqb c (ch "?") then
        match repeat_last (fun a => Alt a Eps) rep f with
        | Some f' => parse_loop pat' false true f' stack
        | None => None
        end
      else if N.eqb c (ch "|") then
        parse_loop pat' false false
          (mkFrame (seq_of (cur f) :: alts f) []) stack
      else if N.eqb c (ch "(") then
        parse_loop pat' false false (mkFrame [] []) (f :: stack)
      else if N.eqb c (ch ")") then
        match stack with
        | outer :: stack' =>
            parse_loop pat' false false (push (close_frame f) outer) stack'
        | [] => None
        end
      else if N.eqb c (ch "[") || N.eqb c (ch "{") ||
              N.eqb c (ch "^") || N.eqb c (ch "$") then None
      else parse_loop pat' false false (push (Chr c) f) stack
  end.

(** [re.compile(pattern)] *)
Definition compile (pattern : str) : option regex :=
  parse_loop pattern false false (mkFrame [] []) [].

(** Backtracking match of [r] at the head of [s]; [k] receives what is
    left of [s] and may refuse it, which makes the matcher try its next
    choice.  A repeat takes as many rounds as it can, each round consuming
    at least one character. *)
Fixpoint rmatch {A : Type} (r : regex) : str -> (str -> option A) -> option A :=
  match r with
  | Eps => fun s k => k s
  | Chr c =>
      fun s k =>
        match s with
        | x :: s' => if N.eqb c x then k s' else None
        | [] => None
        end
  | Any =>
      fun s k =>
        match s with
        | x :: s' => if N.eqb x 10 then None else k s'
        | [] => None
        end
  | Seq a b => fun s k => rmatch a s (fun s' => rmatch b s' k)
  | Alt a b =>
      fun s k =>
        match rmatch a s k with
        | Some x => Some x
        | None => rmatch b s k
        end
  | Star a =>
      fun s k =>
        (fix rounds (n : nat) (s : str) : option A :=
           match n with
           | O => k s
           | S n' =>
               match
                 rmatch a s
                   (fun s' =>
                      if length s' <? length s then rounds n' s' else None)
               with
               | Some x => Some x
               | None => k s
               end
           end) (length s) s
  end.

(** A match starting at the head of [s]: what follows it.  With
    [must_advance] an empty match is refused, as [re] does right after an
    empty match. *)
Definition match_here (r : regex) (must_advance : bool) (s : str)
  : option str :=
  rmatch r s
    (fun rest =>
       if must_advance && (length rest =? length s) then None else Some rest).

(** Leftmost match in [s]: the text before it, the text after it and
    whether it is empty. *)
Fixpoint search_from (r : regex) (must_advance : bool) (s : str)
  : option (str * str * bool) :=
  match match_here r must_advance s with
  | Some rest => Some ([], rest, length rest =? length s)
  | None =>
      match s with
      | [] => None
      | c :: s' =>
          match search_from r false s' with
          | Some (pre, rest, e) => Some (c :: pre, rest, e)
          | None => None
          end
      end
  end.

(** The replacement template of [re.sub]: backslash escapes are
    processed, every other character stands for itself. *)
Fixpoint expand_template (repl : str) : option str :=
  match repl with
  | [] => Some []
  | c :: t =>
      if N.eqb c (ch "\") then
        match t with
        | [] => None
        | e :: t' =>
            let put x := option_map (cons x) (expand_template t') in
            if N.eqb e (ch "\") then put (ch "\")
            else if N.eqb e (ch "n") then put 10%N
            else if N.eqb e (ch "t") then put 9%N
            else if N.eqb e (ch "r") then put 13%N
            else None
        end
      else option_map (cons c) (expand_template t)
  end.

(** The loop of [re.sub]: copy up to the next match, emit the
    replacement, go on behind the match.  Two steps are enough for every
    position of [s]. *)
Fixpoint sub_loop (fuel : nat) (r : regex) (repl : str) (must_advance : bool)
  (s : str) : str :=
  match fuel with
  | O => s
  | S fuel' =>
      match search_from r must_advance s with
      | None => s
      | Some (pre, rest, e) => pre ++ repl ++ sub_loop fuel' r repl e rest
      end
  end.

(** [re.search(pattern, string)]: a match object or [None]. *)
Definition search (pattern string : str) : result (option (str * str)) :=
  match compile pattern with
  | None => Raise re_error
  | Some r =>
      Ok (option_map (fun m => (fst (fst m), snd (fst m)))
            (search_from r false string))
  end.

(** [re.sub(pattern, repl, string)] *)
Definition sub (pattern repl string : str) : result str :=
  match compile pattern, expand_template repl with
  | Some r, Some t => Ok (sub_loop (2 * length string + 2) r t false string)
  | _, _ => Raise re_error
  end.

End Re.
Import Re.

(** Truth value of a match object or [None]. *)
Definition truthy {A : Type} (m : option A) : bool :=
  match m with
  | Some _ => true
  | None => false
  end.

(* ================================================================= *)
(** ** The rule table *)

(** A rule: the old import pattern and what replaces it. *)
Definition rule := (str * str)%type.

Definition UI_REPLACEMENTS : list rule :=
  [ (* Shadcn components *)
    (lit "use crate::ui::shadcn::", lit "use oxui::shadcn::");
    (* Radix components *)
    (lit "use crate::ui::radix::", lit "use oxui::radix::");
    (* Custom components *)
    (lit "use crate::ui::custom::", lit "use oxui::custom::");
    (* Generic components (moved to oxui) *)
    (lit "use crate::ui::components::animated_grid",
     lit "use oxui::components::animated_grid");
    (lit "use crate::ui::components::confirm_dialog",
     lit "use oxui::components::confirm_dialog");
    (lit "use crate::ui::components::error", lit "use oxui::components::error");
    (lit "use crate::ui::components::form", lit "use oxui::components::form");
    (lit "use crate::ui::components::loading_overlay",
     lit "use oxui::components::loading_overlay");
    (lit "use crate::ui::components::portal_v2",
     lit "use oxui::components::portal_v2") ].

(** Domain-specific components (moved to ruxlog-shared) *)
Definition DOMAIN_REPLACEMENTS : list rule :=
  [ (lit "use crate::ui::components::tag",
     lit "use ruxlog_shared::components::tag");
    (lit "use crate::ui::components::user_avatar",
     lit "use ruxlog_shared::components::user_avatar") ].

(** Store imports *)
Definition STORE_REPLACEMENTS : list rule :=
  [ (lit "use crate::store::", lit "use ruxlog_shared::store::");
    (lit "from crate::store", lit "from ruxlog_shared::store") ].

(** The three tables in the order [process_file] goes through them. *)
Definition ALL_REPLACEMENTS : list rule :=
  UI_REPLACEMENTS ++ DOMAIN_REPLACEMENTS ++ STORE_REPLACEMENTS.

(** The entry of [changes_made] for a rule:
    [f"  {old_pattern} -> {new_pattern}"]. *)
Definition change_line (old_pattern new_pattern : str) : str :=
  lit "  " ++ old_pattern ++ lit " -> " ++ new_pattern.

(* ================================================================= *)
(** ** The file system *)

(** What [open(..., encoding="utf-8").read()] finds in a file: the text
    it returns, which is also what a later [write] of that text leaves
    there, or bytes that are not UTF-8. *)
Inductive fdata :=
| Text (s : str)
| Undecodable.

Record file := mkFile { data : fdata; readable : bool; writable : bool }.

(** A directory lists its entries by name.  Every path has a node of its
    own: hard links and symbolic links, through which a write at one path
    changes what another path holds, are not part of the model. *)
#[warnings="-register-all"] Inductive node :=
| File (f : file)
| Dir (entries : list (str * node)).

(** A path, one component after the other; [os.path.join(root, name)] and
    [root / name] add a component. *)
Definition path := list str.

Fixpoint assoc (name : str) (es : list (str * node)) : option node :=
  match es with
  | [] => None
  | (k, v) :: es' => if str_eqb k name then Some v else assoc name es'
  end.

(** Replace the entry called [name], or add it. *)
Fixpoint assoc_set (name : str) (v : node) (es : list (str * node))
  : list (str * node) :=
  match es with
  | [] => [(name, v)]
  | (k, x) :: es' =>
      if str_eqb k name then (k, v) :: es' else (k, x) :: assoc_set name v es'
  end.

Fixpoint lookup (n : node) (p : path) : option node :=
  match p with
  | [] => Some n
  | d :: p' =>
      match n with
      | File _ => None
      | Dir es =>
          match assoc d es with
          | Some c => lookup c p'
          | None => None
          end
      end
  end.

(** Put [v] at [p]: the node there is replaced, or [v] is added to the
    directory above when nothing is there.  [None] when the directory
    above is missing. *)
Fixpoint store (n : node) (p : path) (v : node) : option node :=
  match p with
  | [] => Some v
  | d :: p' =>
      match n with
      | File _ => None
      | Dir es =>
          match p' with
          | [] => Some (Dir (assoc_set d v es))
          | _ :: _ =>
              match assoc d es with
              | None => None
              | Some c =>
                  match store c p' v with
                  | Some c' => Some (Dir (assoc_set d c' es))
                  | None => None
                  end
              end
          end
      end
  end.

Definition is_dir (n : node) : bool :=
  match n with
  | Dir _ => true
  | File _ => false
  end.

(** The file at [p], if [p] names a regular file. *)
Definition file_at (n : node) (p : path) : option file :=
  match lookup n p with
  | Some (File f) => Some f
  | _ => None
  end.

(** What is at [p]: nothing, a directory ([true]) or a file. *)
Definition kind_at (n : node) (p : path) : option bool :=
  option_map is_dir (lookup n p).

(** The names of the subdirectories and of the other entries of a
    directory, as [os.walk] sorts them into [dirs] and [files]. *)
Definition dir_names (es : list (str * node)) : list str :=
  map fst (filter (fun e => is_dir (snd e)) es).

Definition file_names (es : list (str * node)) : list str :=
  map fst (filter (fun e => negb (is_dir (snd e))) es).

(** [os.walk(top)], top-down, with a consumer that filters [dirs] in
    place by [keep] before the walk goes on: the triples it yields.  A
    [top] that is not a directory yields nothing. *)
Fixpoint os_walk (keep : str -> bool) (top : path) (n : node)
  : list (path * list str * list str) :=
  match n with
  | File _ => []
  | Dir es =>
      (top, filter keep (dir_names es), file_names es) ::
      (fix children (es : list (str * node)) :=
         match es with
         | [] => []
         | (d, c) :: es' =>
             (if is_dir c && keep d then os_walk keep (top ++ [d]) c else [])
             ++ children es'
         end) es
  end.

(* ================================================================= *)
(** ** The script's effects *)

Inductive mode := R | W.

(** What the script asks of the file system, in order. *)
Inductive event :=
| EvStat (p : path)                (* Path.exists() *)
| EvScandir (p : path)             (* a directory listed by os.walk *)
| EvOpen (p : path) (m : mode).    (* open(p, m) *)

(** The lines printed, by the statement that prints them:
    - [Updated]: the check mark, then [f" Updated: {file_path}"];
    - [Error_processing]: the cross, then
      [f" Error processing {file_path}: {e}"];
    - [Not_found]: [f"Error: Source directory not found: {src_dir}"];
    - [Scanning]: [f"Scanning: {src_dir}"];
    - [Found]: [f"Found {len(rust_files)} Rust files"];
    - [Summary]:
      [f"Updated {updated_count} out of {len(rust_files)} files"];
    - [Plain] and [Blank]: any other line, and [print()]. *)
Inductive line :=
| Plain (s : str)
| Blank
| Updated (file_path : path)
| Error_processing (file_path : path) (e : exn)
| Not_found (src_dir : path)
| Scanning (src_dir : path)
| Found (n : nat)
| Summary (updated total : nat).

Record world := mkWorld {
  fs : node;
  events : list event;
  stdout : list line
}.

(** A statement: it changes the world and returns or raises. *)
Definition IO (A : Type) := world -> world * result A.

Definition ret {A : Type} (a : A) : IO A := fun w => (w, Ok a).

Definition bind {A B : Type} (c : IO A) (k : A -> IO B) : IO B :=
  fun w =>
    match c w with
    | (w', Ok a) => k a w'
    | (w', Raise e) => (w', Raise e)
    end.

Notation "x <- c ;; k" := (bind c (fun x => k))
  (at level 61, c at next level, right associativity).
Notation "' pat <- c ;; k" := (bind c (fun x => match x with pat => k end))
  (at level 61, pat pattern, c at next level, right associativity).
Notation "c ;; k" := (bind c (fun _ => k))
  (at level 61, right associativity).

(** A library call that touches nothing. *)
Definition pure_call {A : Type} (r : result A) : IO A := fun w => (w, r).

(** [try: body / except Exception as e: handler(e)] *)
Definition try_except {A : Type} (body : IO A) (handler : exn -> IO A) : IO A :=
  fun w =>
    match body w with
    | (w', Ok a) => (w', Ok a)
    | (w', Raise e) => handler e w'
    end.

Definition log (e : event) (w : world) : world :=
  mkWorld (fs w) (events w ++ [e]) (stdout w).

(** The world with more lines on the standard output. *)
Definition say_all (ls : list line) (w : world) : world :=
  mkWorld (fs w) (events w) (stdout w ++ ls).

Definition say (l : line) (w : world) : world := say_all [l] w.

(** [print(l)] on a standard output whose codec can encode the line; for
    one that cannot, see [print_on] below. *)
Definition print (l : line) : IO unit := fun w => (say l w, Ok tt).

(** [for x in xs: body], with the variables the body assigns as [s]. *)
Fixpoint for_each {A S : Type} (xs : list A) (body : A -> S -> IO S) (s : S)
  : IO S :=
  match xs with
  | [] => ret s
  | x :: xs' => s' <- body x s ;; for_each xs' body s'
  end.

(** [with open(p, "r", encoding="utf-8") as f: f.read()] *)
Definition read_text (p : path) : IO str :=
  fun w =>
    let w := log (EvOpen p R) w in
    match lookup (fs w) p with
    | None => (w, Raise FileNotFoundError)
    | Some (Dir _) => (w, Raise IsADirectoryError)
    | Some (File f) =>
        if readable f then
          match data f with
          | Text s => (w, Ok s)
          | Undecodable => (w, Raise UnicodeDecodeError)
          end
        else (w, Raise PermissionError)
    end.

(** [with open(p, "w", encoding="utf-8") as f: f.write(content)]: the
    file is truncated and filled, or created when nothing is at [p]. *)
Definition write_text (p : path) (content : str) : IO unit :=
  fun w =>
    let w := log (EvOpen p W) w in
    let put f :=
      match store (fs w) p (File f) with
      | Some fs' => (mkWorld fs' (events w) (stdout w), Ok tt)
      | None => (w, Raise FileNotFoundError)
      end in
    match lookup (fs w) p with
    | Some (Dir _) => (w, Raise IsADirectoryError)
    | Some (File f) =>
        if writable f then put (mkFile (Text content) (readable f) true)
        else (w, Raise PermissionError)
    | None => put (mkFile (Text content) true true)
    end.

(** [Path.exists()] *)
Definition path_exists (p : path) : IO bool :=
  fun w =>
    (log (EvStat p) w,
     Ok (match lookup (fs w) p with Some _ => true | None => false end)).

(* ================================================================= *)
(** ** [process_file] *)

(** The body of the three loops of [process_file]; [content] and
    [changes_made] are the variables it assigns. *)
Definition replace_round (rl : rule) (vars : str * list str)
  : IO (str * list str) :=
  let '(old_pattern, new_pattern) := rl in
  let '(content, changes_made) := vars in
  m <- pure_call (Re.search old_pattern content) ;;
  if truthy m then
    content <- pure_call (Re.sub old_pattern new_pattern content) ;;
    ret (content, changes_made ++ [change_line old_pattern new_pattern])
  else ret (content, changes_made).

(** One of the three loops of [process_file], over a table. *)
Definition apply_replacements (table : list rule) (vars : str * list str)
  : IO (str * list str) :=
  for_each table replace_round vars.

(** The substitution part of [process_file]: from the content read to the
    content and [changes_made] the write decision is taken on. *)
Definition substitute (content : str) : IO (str * list str) :=
  let changes_made := [] in
  (* Apply UI replacements *)
  vars <- apply_replacements UI_REPLACEMENTS (content, changes_made) ;;
  (* Apply domain-specific replacements *)
  vars <- apply_replacements DOMAIN_REPLACEMENTS vars ;;
  (* Apply store replacements *)
  apply_replacements STORE_REPLACEMENTS vars.

(** The [try] block of [process_file]. *)
Definition process_file_try (file_path : path) : IO bool :=
  content <- read_text file_path ;;
  let original_content := content in
  '(content, changes_made) <- substitute content ;;
  (* Write back if changes were made *)
  if negb (str_eqb content original_content) then
    write_text file_path content ;;
    print (Updated file_path) ;;
    for_each changes_made (fun change _ => print (Plain change)) tt ;;
    ret true
  else ret false.

Definition process_file (file_path : path) : IO bool :=
  try_except (process_file_try file_path)
    (fun e => print (Error_processing file_path e) ;; ret false).

(* ================================================================= *)
(** ** [find_rust_files] and [main] *)

(** The filter on [dirs]: skip hidden directories and target
    directories. *)
Definition keep_dir (d : str) : bool :=
  negb (startswith d (lit ".")) && negb (str_eqb d (lit "target")).

(** The test on [file]. *)
Definition is_rust_file (file : str) : bool :=
  endswith file (lit ".rs") && negb (startswith file (lit ".")).

Definition find_rust_files (root_dir : path) : IO (list path) :=
  fun w =>
    let walk :=
      match lookup (fs w) root_dir with
      | Some n => os_walk keep_dir root_dir n
      | None => []
      end in
    (mkWorld (fs w)
       (events w ++ map (fun t => EvScandir (fst (fst t))) walk) (stdout w),
     Ok (flat_map
           (fun '(root, dirs, files) =>
              map (fun file => root ++ [file]) (filter is_rust_file files))
           walk)).

(** The body of the loop of [main] over [rust_files]. *)
Definition count_file (file_path : path) (updated_count : nat) : IO nat :=
  updated <- process_file file_path ;;
  if updated then print Blank ;; ret (updated_count + 1)
  else ret updated_count.

(** The loop of [main] over [rust_files]; it returns [updated_count]. *)
Definition process_all (rust_files : list path) : IO nat :=
  for_each rust_files count_file 0.

Definition banner : line := Plain (concat (repeat (lit "=") 60)).

(** [main]; [script_dir] is [Path(__file__).parent]. *)
Definition main (script_dir : path) : IO unit :=
  let src_dir := script_dir ++ [lit "admin-dioxus"; lit "src"] in
  found <- path_exists src_dir ;;
  if negb found then print (Not_found src_dir) ;; ret tt
  else
    print banner ;;
    print (Plain (lit "Starting Import Migration")) ;;
    print banner ;;
    print (Scanning src_dir) ;;
    print Blank ;;
    (* Find all Rust files *)
    rust_files <- find_rust_files src_dir ;;
    print (Found (length rust_files)) ;;
    print Blank ;;
    (* Process each file *)
    updated_count <- process_all rust_files ;;
    print banner ;;
    print (Plain (lit "Migration Complete!")) ;;
    print (Summary updated_count (length rust_files)) ;;
    print banner ;;
    print Blank ;;
    print (Plain (lit "Next steps:")) ;;
    print (Plain (lit "1. Delete old directories:")) ;;
    print (Plain (lit "   rm -rf frontend/admin-dioxus/src/ui")) ;;
    print (Plain (lit "   rm -rf frontend/admin-dioxus/src/store")) ;;
    print Blank ;;
    print (Plain (lit "2. Run cargo check:")) ;;
    print (Plain (lit "   cd frontend/admin-dioxus && cargo check")) ;;
    print Blank.

(* ================================================================= *)
(** ** The literal reading of the substitution

    What the loops of [process_file] compute when a pattern is read as
    plain text: substring test and replace-all.  The lemmas below compare
    it with the [re]-based loops above. *)

(** Leftmost occurrence of [p] in [s]: the text before it and the text
    after it. *)
Fixpoint find (p s : str) : option (str * str) :=
  if startswith s p then Some ([], skipn (length p) s)
  else
    match s with
    | [] => None
    | c :: s' =>
        match find p s' with
        | Some (pre, rest) => Some (c :: pre, rest)
        | None => None
        end
    end.

(** One rule, applied to the whole content. *)
Definition apply_rule (content : str) (rl : rule) : str :=
  replace_all (fst rl) (snd rl) content.

(** One round of a loop of [process_file], with literal operations. *)
Definition literal_step (vars : str * list str) (rl : rule) : str * list str :=
  let '(old_pattern, new_pattern) := rl in
  let '(content, changes_made) := vars in
  if contains content old_pattern then
    (replace_all old_pattern new_pattern content,
     changes_made ++ [change_line old_pattern new_pattern])
  else (content, changes_made).

(** The three loops in a row, from the content read. *)
Definition literal_substitute (content : str) : str * list str :=
  fold_left literal_step ALL_REPLACEMENTS (content, []).

(** The content after all the rules of [table], each applied to what the
    rules before it made of the content. *)
Definition apply_all (table : list rule) (content : str) : str :=
  fold_left apply_rule table content.

(** The entries a table adds to [changes_made]: one for each rule whose
    pattern is in the content when its turn comes. *)
Fixpoint fired (table : list rule) (content : str) : list str :=
  match table with
  | [] => []
  | (old_pattern, new_pattern) :: table' =>
      (if contains content old_pattern
       then [change_line old_pattern new_pattern] else [])
      ++ fired table' (replace_all old_pattern new_pattern content)
  end.

Fixpoint nodupb (l : list str) : bool :=
  match l with
  | [] => true
  | x :: l' => negb (existsb (str_eqb x) l') && nodupb l'
  end.

(** A pattern without special characters and a template without
    escapes. *)
Definition plain_pattern (p : str) : bool :=
  negb (str_eqb p []) && forallb (fun c => negb (is_meta c)) p.

Definition plain_template (r : str) : bool :=
  forallb (fun c => negb (N.eqb c (ch "\"))) r.

(** The pattern [p] read as a regular expression when nothing in it is
    special: its characters one after the other. *)
Definition chain (p : str) : regex :=
  fold_right (fun c r => Seq (Chr c) r) Eps p.

(* ================================================================= *)
(** ** Reading the file system and the trace *)

(** The tree [n] has a regular file [name] in the directory reached from
    its top through the directories [dirs]. *)
Fixpoint has_file (n : node) (dirs : list str) (name : str) : bool :=
  match n with
  | File _ => false
  | Dir es =>
      match dirs with
      | [] =>
          existsb (fun e => str_eqb (fst e) name && negb (is_dir (snd e))) es
      | d :: dirs' =>
          existsb
            (fun e =>
               str_eqb (fst e) d && is_dir (snd e) &&
               has_file (snd e) dirs' name)
            es
      end
  end.

(** The files found by the walk from [top] over the tree [n]: the loop of
    [find_rust_files] over what [os.walk] yields. *)
Definition rust_files_of (top : path) (n : node) : list path :=
  flat_map
    (fun '(root, dirs, files) =>
       map (fun file => root ++ [file]) (filter is_rust_file files))
    (os_walk keep_dir top n).

(** The paths opened for reading, and for writing, in order. *)
Definition opened_r (evs : list event) : list path :=
  flat_map (fun e => match e with EvOpen p R => [p] | _ => [] end) evs.

Definition opened_w (evs : list event) : list path :=
  flat_map (fun e => match e with EvOpen p W => [p] | _ => [] end) evs.

(* ================================================================= *)
(** ** A small source tree, for the examples *)

Definition ex_main : str :=
  lit "use crate::store::auth;
use crate::ui::shadcn::button;
use crate::store::posts;".

Definition ex_plain (s : str) : node := File (mkFile (Text s) true true).

Definition ex_tree : node :=
  Dir [ (lit "admin-dioxus",
         Dir [ (lit "src",
                Dir [ (lit "main.rs", ex_plain ex_main);
                      (lit "lib.rs", ex_plain (lit "pub mod views;"));
                      (lit "raw.rs", File (mkFile Undecodable true true));
                      (lit "notes.txt", ex_plain (lit "use crate::store::x"));
                      (lit "target", Dir [ (lit "gen.rs", ex_plain ex_main) ]);
                      (lit "views",
                       Dir [ (lit "home.rs",
                              ex_plain (lit "use crate::ui::components::form;"))
                           ]) ]) ]) ].

Definition ex_world : world := mkWorld ex_tree [] [].

Definition ex_src : path := [lit "admin-dioxus"; lit "src"].

(* ================================================================= *)
(** ** What a run leaves behind: reading contents, files and output *)

(** The content holds a pattern of the table. *)
Definition has_pattern (content : str) : bool :=
  existsb (fun rl => contains content (fst rl)) ALL_REPLACEMENTS.

(** The rules of the table whose pattern is in the content, in the order
    of the table. *)
Definition present_rules (content : str) : list rule :=
  filter (fun rl => contains content (fst rl)) ALL_REPLACEMENTS.

(** The path is a regular file that can be read and written and whose
    text holds a pattern of the table. *)
Definition updatable (n : node) (p : path) : bool :=
  match file_at n p with
  | Some f =>
      readable f && writable f &&
      match data f with
      | Text s => has_pattern s
      | Undecodable => false
      end
  | None => false
  end.

Definition is_updated (l : line) : bool :=
  match l with Updated _ => true | _ => false end.

Definition is_error (l : line) : bool :=
  match l with Error_processing _ _ => true | _ => false end.

Definition is_blank (l : line) : bool :=
  match l with Blank => true | _ => false end.

(** The line separator of the contents. *)
Definition newline : str := [10%N].

(** The tree [n] has a directory reached from its top through the
    directories [dirs]. *)
Fixpoint has_dir (n : node) (dirs : list str) : bool :=
  match n with
  | File _ => false
  | Dir es =>
      match dirs with
      | [] => true
      | d :: dirs' =>
          existsb
            (fun e =>
               str_eqb (fst e) d && is_dir (snd e) && has_dir (snd e) dirs')
            es
      end
  end.

(** The lines [main] prints before the walk and after the loop. *)
Definition header_lines (src_dir : path) : list line :=
  [ banner; Plain (lit "Starting Import Migration"); banner;
    Scanning src_dir; Blank ].

Definition footer_lines (updated_count total : nat) : list line :=
  [ banner; Plain (lit "Migration Complete!"); Summary updated_count total;
    banner; Blank;
    Plain (lit "Next steps:");
    Plain (lit "1. Delete old directories:");
    Plain (lit "   rm -rf frontend/admin-dioxus/src/ui");
    Plain (lit "   rm -rf frontend/admin-dioxus/src/store");
    Blank;
    Plain (lit "2. Run cargo check:");
    Plain (lit "   cd frontend/admin-dioxus && cargo check");
    Blank ].

(** Every directory of the tree names each of its entries once. *)
Fixpoint distinct_names (n : node) : bool :=
  match n with
  | File _ => true
  | Dir es =>
      nodupb (map fst es) &&
      (fix all (es : list (str * node)) : bool :=
         match es with
         | [] => true
         | (_, c) :: es' => distinct_names c && all es'
         end) es
  end.

(* ================================================================= *)
(** ** Printing on a console

    [print] above always succeeds: it is [print] on a standard output
    whose codec can encode every line.  [sys.stdout] encodes with
    [errors="strict"]: a character its codec cannot encode makes [print]
    raise [UnicodeEncodeError] before anything is written.  Below are
    the same statements of the script with that [print].  [encodes] tells
    which characters the codec of the standard output can encode, and
    [message e p] is [str(e)] for the exception caught while [p] is
    processed. *)

Fixpoint uint_text (d : Decimal.uint) : str :=
  match d with
  | Decimal.Nil => []
  | Decimal.D0 d => 48%N :: uint_text d
  | Decimal.D1 d => 49%N :: uint_text d
  | Decimal.D2 d => 50%N :: uint_text d
  | Decimal.D3 d => 51%N :: uint_text d
  | Decimal.D4 d => 52%N :: uint_text d
  | Decimal.D5 d => 53%N :: uint_text d
  | Decimal.D6 d => 54%N :: uint_text d
  | Decimal.D7 d => 55%N :: uint_text d
  | Decimal.D8 d => 56%N :: uint_text d
  | Decimal.D9 d => 57%N :: uint_text d
  end.

(** [str(n)] *)
Definition decimal (n : nat) : str := uint_text (Nat.to_uint n).

(** [str(path)]: the components with the separator between them. *)
Definition path_text (p : path) : str := join (lit "/") p.

(** The check mark and the cross of the two non-ASCII lines. *)
Definition check_mark : char := 10003%N.
Definition cross_mark : char := 10007%N.

Section Console.

Variable encodes : char -> bool.
Variable message : exn -> path -> str.

(** The text of a line. *)
Definition line_text (l : line) : str :=
  match l with
  | Plain s => s
  | Blank => []
  | Updated file_path => check_mark :: lit " Updated: " ++ path_text file_path
  | Error_processing file_path e =>
      cross_mark :: lit " Error processing " ++ path_text file_path ++
      lit ": " ++ message e file_path
  | Not_found src_dir =>
      lit "Error: Source directory not found: " ++ path_text src_dir
  | Scanning src_dir => lit "Scanning: " ++ path_text src_dir
  | Found n => lit "Found " ++ decimal n ++ lit " Rust files"
  | Summary updated total =>
      lit "Updated " ++ decimal updated ++ lit " out of " ++ decimal total ++
      lit " files"
  end.

(** The codec can encode the line. *)
Definition printable (l : line) : bool := forallb encodes (line_text l).

Definition print_on (l : line) : IO unit :=
  fun w =>
    if printable l then (say l w, Ok tt) else (w, Raise UnicodeEncodeError).

(** The [try] block of [process_file]. *)
Definition process_file_try_on (file_path : path) : IO bool :=
  content <- read_text file_path ;;
  let original_content := content in
  '(content, changes_made) <- substitute content ;;
  (* Write back if changes were made *)
  if negb (str_eqb content original_content) then
    write_text file_path content ;;
    print_on (Updated file_path) ;;
    for_each changes_made (fun change _ => print_on (Plain change)) tt ;;
    ret true
  else ret false.

(** The [except] block of [process_file]. *)
Definition report_on (file_path : path) (e : exn) : IO bool :=
  print_on (Error_processing file_path e) ;; ret false.

Definition process_file_on (file_path : path) : IO bool :=
  try_except (process_file_try_on file_path) (report_on file_path).

(** The body of the loop of [main] over [rust_files]. *)
Definition count_file_on (file_path : path) (updated_count : nat) : IO nat :=
  updated <- process_file_on file_path ;;
  if updated then print_on Blank ;; ret (updated_count + 1)
  else ret updated_count.

(** The loop of [main] over [rust_files]; it returns [updated_count]. *)
Definition process_all_on (rust_files : list path) : IO nat :=
  for_each rust_files count_file_on 0.

(** [main]; [script_dir] is [Path(__file__).parent]. *)
Definition main_on (script_dir : path) : IO unit :=
  let src_dir := script_dir ++ [lit "admin-dioxus"; lit "src"] in
  found <- path_exists src_dir ;;
  if negb found then print_on (Not_found src_dir) ;; ret tt
  else
    print_on banner ;;
    print_on (Plain (lit "Starting Import Migration")) ;;
    print_on banner ;;
    print_on (Scanning src_dir) ;;
    print_on Blank ;;
    (* Find all Rust files *)
    rust_files <- find_rust_files src_dir ;;
    print_on (Found (length rust_files)) ;;
    print_on Blank ;;
    (* Process each file *)
    updated_count <- process_all_on rust_files ;;
    print_on banner ;;
    print_on (Plain (lit "Migration Complete!")) ;;
    print_on (Summary updated_count (length rust_files)) ;;
    print_on banner ;;
    print_on Blank ;;
    print_on (Plain (lit "Next steps:")) ;;
    print_on (Plain (lit "1. Delete old directories:")) ;;
    print_on (Plain (lit "   rm -rf frontend/admin-dioxus/src/ui")) ;;
    print_on (Plain (lit "   rm -rf frontend/admin-dioxus/src/store")) ;;
    print_on Blank ;;
    print_on (Plain (lit "2. Run cargo check:")) ;;
    print_on (Plain (lit "   cd frontend/admin-dioxus && cargo check")) ;;
    print_on Blank.

End Console.

(** The codec of a UTF-8 standard output: every code point but the
    surrogates, which is what a file name that is not valid UTF-8 is
    read as. *)
Definition utf8_encodes (c : char) : bool :=
  ((c <=? 1114111) && negb ((55296 <=? c) && (c <=? 57343)))%N.

(** The codec can encode ASCII. *)
Definition encodes_ascii (encodes : char -> bool) : Prop :=
  forall c : char, (c <? 128)%N = true -> encodes c = true.

(** A source directory with a file whose name is not valid UTF-8 (the
    byte [0xff], read as the surrogate [U+DCFF]) and whose bytes do not
    decode, beside a file to migrate. *)
Definition odd_name : str := 56575%N :: lit ".rs".

Definition odd_tree : node :=
  Dir [ (lit "src",
         Dir [ (odd_name, File (mkFile Undecodable true true));
               (lit "b.rs", ex_plain (lit "use crate::store::auth;")) ]) ].

Definition odd_world : world := mkWorld odd_tree [] [].

(* ================================================================= *)
(** * Lemmas *)

(** ** Prefixes and occurrences *)

Lemma startswith_iff (s p : str) :
  startswith s p = true <-> exists t, s = p ++ t.
Proof.
  revert s; induction p as [|c p IH]; intros s; simpl.
  - split; [intros _; now exists s | reflexivity].
  - destruct s as [|x s].
    + split; [discriminate | intros [t H]; discriminate].
    + rewrite andb_true_iff, N.eqb_eq, IH. split.
      * intros [-> [t ->]]. now exists t.
      * intros [t H]. injection H as -> ->. split; [reflexivity | now exists t].
Qed.

Lemma startswith_app (p t : str) : startswith (p ++ t) p = true.
Proof. apply startswith_iff. now exists t. Qed.

Lemma startswith_skipn (s p : str) :
  startswith s p = true -> s = p ++ skipn (length p) s.
Proof.
  intros H. apply startswith_iff in H as [t ->].
  now rewrite skipn_app, skipn_all, Nat.sub_diag.
Qed.

Lemma startswith_nil_r (s : str) : startswith s [] = true.
Proof. now destruct s. Qed.

Lemma contains_iff (s p : str) : contains s p = true <-> occurs p s.
Proof.
  induction s as [|c s IH]; simpl.
  - rewrite orb_false_r, startswith_iff. split.
    + intros [t H]. now exists [], t.
    + intros [a [b H]]. symmetry in H.
      apply app_eq_nil in H as [-> H]. apply app_eq_nil in H as [-> ->].
      now exists [].
  - rewrite orb_true_iff, IH, startswith_iff. split.
    + intros [[t H] | [a [b H]]].
      * now exists [], t.
      * exists (c :: a), b. now rewrite H.
    + intros [[|x a] [b H]].
      * left. now exists b.
      * right. injection H as -> ->. now exists a, b.
Qed.

Lemma not_contains_iff (s p : str) : contains s p = false <-> ~ occurs p s.
Proof. rewrite <- contains_iff. now destruct (contains s p). Qed.

Lemma occurs_app_l (q a b : str) : occurs q a -> occurs q (a ++ b).
Proof. intros [x [y ->]]. exists x, (y ++ b). now rewrite <- !app_assoc. Qed.

Lemma occurs_app_r (q a b : str) : occurs q b -> occurs q (a ++ b).
Proof. intros [x [y ->]]. exists (a ++ x), y. now rewrite <- !app_assoc. Qed.

Lemma occurs_cons (q : str) (c : char) (s : str) :
  occurs q s -> occurs q (c :: s).
Proof. apply (occurs_app_r q [c] s). Qed.

Lemma occurs_self (q a b : str) : occurs q (a ++ q ++ b).
Proof. now exists a, b. Qed.

(** ** [replace_all], one step at a time *)

Lemma replace_from_skip (p r : str) (k : nat) (s : str) :
  replace_from p r k s = replace_from p r 0 (skipn k s).
Proof.
  revert k; induction s as [|c s IH]; intros [|k]; simpl; try reflexivity.
  now rewrite IH.
Qed.

Lemma replace_all_nil (p r : str) : p <> [] -> replace_all p r [] = [].
Proof. now destruct p. Qed.

Lemma replace_all_hit (p r t : str) :
  p <> [] -> replace_all p r (p ++ t) = r ++ replace_all p r t.
Proof.
  destruct p as [|c p]; [easy | intros _].
  unfold replace_all. cbn [app replace_from].
  change (c :: p ++ t) with ((c :: p) ++ t). rewrite startswith_app.
  rewrite replace_from_skip.
  replace (length (c :: p) - 1) with (length p) by (simpl; lia).
  now rewrite skipn_app, skipn_all, Nat.sub_diag.
Qed.

Lemma replace_all_miss (p r : str) (c : char) (s : str) :
  p <> [] -> startswith (c :: s) p = false ->
  replace_all p r (c :: s) = c :: replace_all p r s.
Proof.
  destruct p as [|x p]; [easy | intros _ H].
  unfold replace_all. cbn [replace_from]. now rewrite H.
Qed.

Lemma replace_all_absent (p r s : str) :
  p <> [] -> ~ occurs p s -> replace_all p r s = s.
Proof.
  intros Hp. induction s as [|c s IH]; intros H.
  - now apply replace_all_nil.
  - rewrite replace_all_miss; trivial.
    + f_equal. apply IH. intros Ho. apply H. now apply occurs_cons.
    + destruct (startswith (c :: s) p) eqn:E; trivial.
      exfalso. apply H. apply startswith_iff in E as [t ->]. now exists [], t.
Qed.

(** ** [find] cuts the content at the leftmost occurrence *)

Lemma find_truthy (p s : str) : truthy (find p s) = contains s p.
Proof.
  induction s as [|c s IH]; simpl.
  - now destruct (startswith [] p).
  - destruct (startswith (c :: s) p); [reflexivity|]. simpl.
    rewrite <- IH. now destruct (find p s) as [[pre rest]|].
Qed.

Lemma find_some (p r s pre rest : str) :
  p <> [] -> find p s = Some (pre, rest) ->
  s = pre ++ p ++ rest /\
  replace_all p r s = pre ++ r ++ replace_all p r rest.
Proof.
  intros Hp. revert pre; induction s as [|c s IH]; intros pre; simpl.
  - destruct (startswith [] p) eqn:E; [|discriminate].
    apply startswith_iff in E as [t E]. symmetry in E.
    now apply app_eq_nil in E as [-> _].
  - destruct (startswith (c :: s) p) eqn:E.
    + intros H; injection H as <- <-.
      pose proof (startswith_skipn _ _ E) as Hs. split; [exact Hs|].
      rewrite Hs at 1. now apply replace_all_hit.
    + destruct (find p s) as [[pre' rest']|]; [|discriminate].
      intros H; injection H as <- <-.
      destruct (IH pre' eq_refl) as [-> Hr]. split; [reflexivity|].
      rewrite replace_all_miss by assumption. now rewrite Hr.
Qed.

Lemma find_none (p r s : str) :
  p <> [] -> find p s = None -> replace_all p r s = s.
Proof.
  intros Hp H. apply replace_all_absent; trivial.
  apply not_contains_iff. rewrite <- find_truthy, H. reflexivity.
Qed.

(** ** [re] reads a pattern without special characters as plain text *)

Lemma not_meta_tests (c : char) :
  is_meta c = false ->
  N.eqb c (ch "\") = false /\ N.eqb c (ch ".") = false /\
  N.eqb c (ch "*") = false /\ N.eqb c (ch "+") = false /\
  N.eqb c (ch "?") = false /\ N.eqb c (ch "|") = false /\
  N.eqb c (ch "(") = false /\ N.eqb c (ch ")") = false /\
  N.eqb c (ch "[") = false /\ N.eqb c (ch "{") = false /\
  N.eqb c (ch "^") = false /\ N.eqb c (ch "$") = false.
Proof.
  unfold is_meta. intros H.
  change (lit ".^$*+?{}[]\|()") with
    [ch "."; ch "^"; ch "$"; ch "*"; ch "+"; ch "?"; ch "{"; ch "}";
     ch "["; ch "]"; ch "\"; ch "|"; ch "("; ch ")"] in H.
  cbn [existsb] in H.
  repeat (apply orb_false_iff in H as [? H]).
  repeat split; assumption.
Qed.

Lemma parse_loop_plain (pat : str) (rep : bool) (f : frame)
  (stack : list frame) :
  forallb (fun c => negb (is_meta c)) pat = true ->
  parse_loop pat false rep f stack =
  parse_loop [] false false
    (mkFrame (alts f) (rev (map Chr pat) ++ cur f)) stack.
Proof.
  revert rep f; induction pat as [|c pat IH]; intros rep f H.
  - destruct f; reflexivity.
  - cbn [forallb] in H. apply andb_true_iff in H as [Hc H].
    apply negb_true_iff, not_meta_tests in Hc.
    destruct Hc as (E1 & E2 & E3 & E4 & E5 & E6 & E7 & E8 & E9 & E10 & E11 & E12).
    cbn [parse_loop].
    rewrite E1, E2, E3, E4, E5, E6, E7, E8, E9, E10, E11, E12. cbn [orb].
    rewrite IH by assumption. cbn [push alts cur map rev].
    now rewrite <- app_assoc.
Qed.

Lemma seq_of_rev (items : list regex) :
  seq_of (rev items) = fold_right Seq Eps items.
Proof.
  unfold seq_of. rewrite <- fold_left_rev_right, rev_involutive. reflexivity.
Qed.

Lemma re_compile_plain (p : str) :
  forallb (fun c => negb (is_meta c)) p = true -> Re.compile p = Some (chain p).
Proof.
  intros H. unfold Re.compile. rewrite parse_loop_plain by assumption.
  cbn [parse_loop alts cur close_frame fold_left]. rewrite app_nil_r, seq_of_rev.
  f_equal. unfold chain. induction p as [|c p IH]; [reflexivity|].
  cbn [forallb] in H. apply andb_true_iff in H as [_ H].
  cbn [map fold_right]. now rewrite IH.
Qed.

Lemma rmatch_chain (A : Type) (p s : str) (k : str -> option A) :
  rmatch (chain p) s k =
  if startswith s p then k (skipn (length p) s) else None.
Proof.
  revert s; induction p as [|c p IH]; intros s.
  - reflexivity.
  - cbn [chain fold_right rmatch]. destruct s as [|x s]; [reflexivity|].
    cbn [startswith length skipn]. destruct (N.eqb c x); [|reflexivity].
    apply IH.
Qed.

Lemma match_here_chain (p : str) (adv : bool) (s : str) :
  p <> [] ->
  match_here (chain p) adv s =
  if startswith s p then Some (skipn (length p) s) else None.
Proof.
  intros Hp. unfold match_here. rewrite rmatch_chain.
  destruct (startswith s p) eqn:E; [|reflexivity].
  apply startswith_skipn in E.
  assert (L : length (skipn (length p) s) <> length s).
  { rewrite E at 2. rewrite length_app. destruct p; [easy | simpl; lia]. }
  apply Nat.eqb_neq in L. rewrite L. now rewrite andb_false_r.
Qed.

Lemma search_from_chain (p : str) (adv : bool) (s : str) :
  p <> [] ->
  search_from (chain p) adv s =
  option_map (fun m => (fst m, snd m, false)) (find p s).
Proof.
  intros Hp. revert adv; induction s as [|c s IH]; intros adv;
    cbn [search_from find]; rewrite match_here_chain by assumption.
  - destruct (startswith [] p) eqn:E; [|reflexivity].
    apply startswith_iff in E as [t E]. symmetry in E.
    now apply app_eq_nil in E as [-> _].
  - destruct (startswith (c :: s) p) eqn:E.
    + cbn [option_map fst snd]. do 2 f_equal.
      apply startswith_skipn in E. apply Nat.eqb_neq.
      rewrite E at 2. rewrite length_app. destruct p; [easy | simpl; lia].
    + rewrite IH. now destruct (find p s) as [[pre rest]|].
Qed.

Lemma expand_template_plain (r : str) :
  plain_template r = true -> expand_template r = Some r.
Proof.
  induction r as [|c r IH]; [reflexivity|]. unfold plain_template.
  cbn [forallb expand_template]. intros H. apply andb_true_iff in H as [Hc H].
  apply negb_true_iff in Hc. rewrite Hc, (IH H). reflexivity.
Qed.

Lemma sub_loop_chain (p r : str) (fuel : nat) (s : str) (adv : bool) :
  p <> [] -> length s < fuel ->
  sub_loop fuel (chain p) r adv s = replace_all p r s.
Proof.
  intros Hp. revert s adv; induction fuel as [|fuel IH]; intros s adv L; [lia|].
  cbn [sub_loop]. rewrite search_from_chain by assumption.
  destruct (find p s) as [[pre rest]|] eqn:E; cbn [option_map fst snd].
  - destruct (find_some p r s pre rest Hp E) as [Hs ->]. do 2 f_equal. apply IH.
    rewrite Hs, !length_app in L.
    assert (length p <> 0) by (destruct p; [easy | discriminate]). lia.
  - symmetry. now apply find_none.
Qed.

Lemma re_search_plain (p s : str) :
  plain_pattern p = true ->
  exists m, Re.search p s = Ok m /\ truthy m = contains s p.
Proof.
  unfold plain_pattern. intros H. apply andb_true_iff in H as [Hp H].
  unfold Re.search. rewrite re_compile_plain by assumption.
  eexists; split; [reflexivity|].
  rewrite search_from_chain.
  - rewrite <- find_truthy. now destruct (find p s).
  - unfold str_eqb in Hp. now destruct (str_eq_dec p []).
Qed.

Lemma re_sub_plain (p r s : str) :
  plain_pattern p = true -> plain_template r = true ->
  Re.sub p r s = Ok (replace_all p r s).
Proof.
  unfold plain_pattern. intros H Hr. apply andb_true_iff in H as [Hp H].
  unfold Re.sub. rewrite re_compile_plain, expand_template_plain by assumption.
  f_equal. apply sub_loop_chain; [|lia].
  unfold str_eqb in Hp. now destruct (str_eq_dec p []).
Qed.
(** ** Occurrences that cannot overlap *)

Lemma app_eq_app_le {A : Type} (u v a w : list A) :
  u ++ v = a ++ w -> length u <= length a ->
  exists a', a = u ++ a' /\ v = a' ++ w.
Proof.
  revert a; induction u as [|x u IH]; intros a H L.
  - now exists a.
  - destruct a as [|y a]; [simpl in L; lia|].
    injection H as -> H. simpl in L.
    destruct (IH a H) as [a' [-> ->]]; [lia|]. now exists a'.
Qed.

Lemma agree_app (u b v y : str) : u ++ b = v ++ y -> agree u v = true.
Proof.
  revert v; induction u as [|x u IH]; intros [|z v] H; try reflexivity.
  injection H as -> H. simpl. rewrite N.eqb_refl. now apply IH.
Qed.

Lemma forallb_seq (f : nat -> bool) (start len k : nat) :
  forallb f (seq start len) = true -> start <= k < start + len -> f k = true.
Proof.
  intros H Hk. rewrite forallb_forall in H. apply H, in_seq. lia.
Qed.

(** The occurrence of [q] starts [k] characters before that of [r] and
    reaches into it. *)
Lemma overlap_agree (a q b x r y : str) :
  a ++ q ++ b = x ++ r ++ y ->
  length a <= length x -> length x < length a + length q ->
  agree (skipn (length x - length a) q) r = true.
Proof.
  intros H L1 L2.
  destruct (app_eq_app_le _ _ _ _ H L1) as [k [-> Hk]].
  rewrite length_app. replace (length a + length k - length a) with (length k) by lia.
  rewrite length_app in L2.
  assert (Lk : length k <= length q) by lia.
  symmetry in Hk.
  destruct (app_eq_app_le _ _ _ _ Hk Lk) as [q' [-> Hq]].
  rewrite skipn_app, skipn_all, Nat.sub_diag. cbn [skipn app].
  rewrite <- app_assoc in Hk. apply app_inv_head in Hk.
  eapply agree_app. symmetry. exact Hk.
Qed.

(** Two occurrences laid over each other [k] apart agree on their common
    part, which the tests [tests] of [apart] or [unbordered] deny. *)
Ltac clash tests H k :=
  let E := fresh "E" in
  assert (E := overlap_agree _ _ _ _ _ _ H);
  apply (forallb_seq _ _ _ k) in tests; [|lia];
  cbv beta in tests; rewrite E in tests; [discriminate | lia | lia].

Lemma apart_nonempty (q r : str) : apart q r = true -> q <> [] /\ r <> [].
Proof.
  unfold apart, str_eqb. intros H.
  repeat (apply andb_true_iff in H as [H ?]).
  destruct (str_eq_dec q []), (str_eq_dec r []); easy.
Qed.

(** Occurrences of two strings that are [apart] are disjoint. *)
Lemma apart_disjoint (q r a b x y : str) :
  apart q r = true -> a ++ q ++ b = x ++ r ++ y ->
  length a + length q <= length x \/ length x + length r <= length a.
Proof.
  intros Hap H. unfold apart in Hap.
  apply andb_true_iff in Hap as [Hap H2]. apply andb_true_iff in Hap as [_ H1].
  destruct (le_lt_dec (length a + length q) (length x)) as [|L1]; [now left|].
  destruct (le_lt_dec (length x + length r) (length a)) as [|L2]; [now right|].
  exfalso. destruct (le_lt_dec (length a) (length x)) as [L|L].
  - clash H1 H (length x - length a).
  - symmetry in H. clash H2 H (length a - length x).
Qed.

Lemma unbordered_nonempty (p : str) : unbordered p = true -> p <> [].
Proof.
  unfold unbordered, str_eqb. intros H. apply andb_true_iff in H as [H _].
  now destruct (str_eq_dec p []).
Qed.

(** Two occurrences of an unbordered string coincide or are disjoint. *)
Lemma unbordered_disjoint (p a b x y : str) :
  unbordered p = true -> a ++ p ++ b = x ++ p ++ y ->
  length a = length x \/
  length a + length p <= length x \/ length x + length p <= length a.
Proof.
  intros Hu H. unfold unbordered in Hu. apply andb_true_iff in Hu as [_ Hu].
  destruct (Nat.eq_dec (length a) (length x)) as [|Ne]; [now left|]. right.
  destruct (le_lt_dec (length a + length p) (length x)) as [|L1]; [now left|].
  destruct (le_lt_dec (length x + length p) (length a)) as [|L2]; [now right|].
  exfalso. destruct (le_lt_dec (length a) (length x)) as [L|L].
  - clash Hu H (length x - length a).
  - symmetry in H. clash Hu H (length a - length x).
Qed.

Lemma apart_absent (q r : str) : apart q r = true -> ~ occurs q r.
Proof.
  intros Hap [a [b H]].
  destruct (apart_nonempty _ _ Hap) as [Hq Hr].
  assert (E : a ++ q ++ b = [] ++ r ++ []) by (now rewrite app_nil_r, <- H).
  apply (apart_disjoint _ _ _ _ _ _ Hap) in E. simpl in E.
  rewrite H, !length_app in E.
  assert (length q <> 0) by (destruct q; [easy | discriminate]).
  lia.
Qed.

(** ** What [replace_all] leaves and what it keeps *)

Lemma length_pos (p : str) : p <> [] -> 0 < length p.
Proof. destruct p; [easy | simpl; lia]. Qed.

(** Behind the text [g] already copied, no occurrence of [q] shows up in
    the result when the occurrences of [q] in the source all start in the
    part still to do and [q] is the pattern being replaced. *)
Lemma replace_all_clean_from (q p r : str) :
  apart q r = true -> p <> [] ->
  forall (n : nat) (s g : str),
    length s <= n ->
    (forall a b, g ++ s = a ++ q ++ b -> length g <= length a /\ q = p) ->
    ~ occurs q (g ++ replace_all p r s).
Proof.
  intros Hap Hp. destruct (apart_nonempty _ _ Hap) as [Hq Hr].
  pose proof (length_pos _ Hq) as Lq. pose proof (length_pos _ Hp) as Lp.
  induction n as [|n IH]; intros s g Ln H [a [b E]].
  - destruct s; [|simpl in Ln; lia].
    rewrite replace_all_nil, app_nil_r in E by assumption.
    destruct (H a b) as [L _]; [now rewrite app_nil_r|].
    rewrite E, !length_app in L. lia.
  - destruct s as [|c s].
    + rewrite replace_all_nil, app_nil_r in E by assumption.
      destruct (H a b) as [L _]; [now rewrite app_nil_r|].
      rewrite E, !length_app in L. lia.
    + destruct (startswith (c :: s) p) eqn:Es.
      * apply startswith_iff in Es as [t Es]. rewrite Es in *.
        rewrite replace_all_hit in E by assumption.
        symmetry in E.
        destruct (apart_disjoint _ _ _ _ _ _ Hap E) as [L|L].
        -- assert (La : length a <= length g) by lia.
           destruct (app_eq_app_le _ _ _ _ E La) as [k [Hg Hk]].
           assert (Lk : length q <= length k).
           { rewrite Hg, length_app in L. lia. }
           destruct (app_eq_app_le _ _ _ _ Hk Lk) as [k' [Hk' _]].
           destruct (H a (k' ++ p ++ t)) as [L' _].
           { rewrite Hg, Hk'. now rewrite <- !app_assoc. }
           rewrite Hg, Hk', !length_app in L'. lia.
        -- symmetry in E. rewrite app_assoc in E.
           assert (La : length (g ++ r) <= length a)
             by (rewrite length_app; lia).
           destruct (app_eq_app_le _ _ _ _ E La) as [k [Ha Hk]].
           apply (IH t [] ); [ | | now exists k, b].
           ++ rewrite length_app in Ln. lia.
           ++ intros a' b' E'. split; [simpl; lia|].
              apply (H (g ++ p ++ a') b'). simpl in E'. rewrite E'.
              now rewrite <- !app_assoc.
      * rewrite replace_all_miss in E by assumption.
        apply (IH s (g ++ [c])); [simpl in Ln; lia | | ].
        -- intros a' b' E'. rewrite <- app_assoc in E'. simpl in E'.
           destruct (H a' b' E') as [L ->]. split; [|reflexivity].
           rewrite length_app. simpl.
           destruct (Nat.eq_dec (length g) (length a')) as [Eq|]; [|lia].
           exfalso.
           assert (Lg : length g <= length a') by lia.
           destruct (app_eq_app_le _ _ _ _ E' Lg) as [k [Ha Hk]].
           assert (k = []).
           { apply length_zero_iff_nil. rewrite Ha, length_app in Eq. lia. }
           subst k. simpl in Hk. rewrite Hk, startswith_app in Es.
           discriminate.
        -- exists a, b. now rewrite <- app_assoc.
Qed.

(** Replacing [p] by [r] leaves no occurrence of [p], and brings in no
    occurrence of a [q] that was not there. *)
Lemma replace_all_removes (p r s : str) :
  apart p r = true -> ~ occurs p (replace_all p r s).
Proof.
  intros Hap. destruct (apart_nonempty _ _ Hap) as [Hp _].
  apply (replace_all_clean_from p p r Hap Hp (length s) s [] (le_n _)).
  intros a b _. split; [simpl; lia | reflexivity].
Qed.

Lemma replace_all_brings_none (q p r s : str) :
  apart q r = true -> p <> [] -> ~ occurs q s -> ~ occurs q (replace_all p r s).
Proof.
  intros Hap Hp Hno.
  apply (replace_all_clean_from q p r Hap Hp (length s) s [] (le_n _)).
  intros a b E. exfalso. apply Hno. now exists a, b.
Qed.

(** [replace_all] works on the two sides of a cut separately when no
    occurrence of the pattern lies across the cut. *)
Lemma replace_all_app (p r : str) :
  p <> [] ->
  forall (n : nat) (a b : str),
    length a <= n ->
    (forall x y, a ++ b = x ++ p ++ y ->
                 length x + length p <= length a \/ length a <= length x) ->
    replace_all p r (a ++ b) = replace_all p r a ++ replace_all p r b.
Proof.
  intros Hp. pose proof (length_pos _ Hp) as Lp.
  induction n as [|n IH]; intros a b Ln H.
  - destruct a; [|simpl in Ln; lia]. now rewrite replace_all_nil.
  - destruct a as [|c a]; [now rewrite replace_all_nil|].
    destruct (startswith ((c :: a) ++ b) p) eqn:Es.
    + apply startswith_iff in Es as [t Es].
      destruct (H [] t Es) as [L|L]; [|simpl in L; lia]. simpl in L.
      symmetry in Es.
      destruct (app_eq_app_le _ _ _ _ Es L) as [k [Ha Hk]].
      rewrite Ha, <- app_assoc, !replace_all_hit by assumption.
      rewrite <- app_assoc. f_equal. apply IH.
      * apply (f_equal (@length _)) in Ha. rewrite length_app in Ha.
        simpl in Ha, Ln. lia.
      * intros x y E.
        destruct (H (p ++ x) y) as [L'|L'].
        -- rewrite Ha, <- !app_assoc. now rewrite E.
        -- left. rewrite Ha, !length_app in L'. lia.
        -- right. rewrite Ha, !length_app in L'. lia.
    + assert (Es' : startswith (c :: a) p = false).
      { destruct (startswith (c :: a) p) eqn:E'; [|reflexivity].
        apply startswith_iff in E' as [t E']. rewrite E', <- app_assoc in Es.
        now rewrite startswith_app in Es. }
      simpl app in *. rewrite !replace_all_miss by assumption.
      simpl. f_equal. apply IH; [simpl in Ln; lia|].
      intros x y E. destruct (H (c :: x) y) as [L|L].
      * simpl. now rewrite E.
      * left. simpl in L. lia.
      * right. simpl in L. lia.
Qed.

(** An occurrence of [u] that no occurrence of [p] can touch is carried
    over as it is. *)
Lemma replace_all_around (p r u a b : str) :
  apart p u = true ->
  replace_all p r (a ++ u ++ b) =
  replace_all p r a ++ u ++ replace_all p r b.
Proof.
  intros Hap. destruct (apart_nonempty _ _ Hap) as [Hp Hu].
  rewrite (replace_all_app p r Hp (length a) a (u ++ b) (le_n _)).
  - f_equal.
    rewrite (replace_all_app p r Hp (length u) u b (le_n _)).
    + f_equal. apply replace_all_absent; [assumption|].
      now apply apart_absent.
    + intros x y E.
      assert (E' : x ++ p ++ y = [] ++ u ++ b) by now rewrite <- E.
      apply (apart_disjoint _ _ _ _ _ _ Hap) in E'. simpl in E'.
      pose proof (length_pos _ Hp). lia.
  - intros x y E. symmetry in E.
    destruct (apart_disjoint _ _ _ _ _ _ Hap E); [now left | right; lia].
Qed.

(** An occurrence of the pattern itself is replaced wherever it is, when
    the pattern cannot overlap itself. *)
Lemma replace_all_at (p r a b : str) :
  unbordered p = true ->
  replace_all p r (a ++ p ++ b) =
  replace_all p r a ++ r ++ replace_all p r b.
Proof.
  intros Hu. pose proof (unbordered_nonempty _ Hu) as Hp.
  rewrite (replace_all_app p r Hp (length a) a (p ++ b) (le_n _)).
  - f_equal. now apply replace_all_hit.
  - intros x y E. symmetry in E.
    destruct (unbordered_disjoint _ _ _ _ _ Hu E) as [L|[L|L]];
      [right; lia | now left | right; lia].
Qed.

(** ** The rule table as data *)

(** A fact about the table that is settled by running its test. *)
Ltac by_computation := vm_compute; reflexivity.

Lemma str_eqb_eq (a b : str) : str_eqb a b = true <-> a = b.
Proof. unfold str_eqb. destruct (str_eq_dec a b); split; congruence. Qed.

Lemma str_eqb_neq (a b : str) : str_eqb a b = false <-> a <> b.
Proof. unfold str_eqb. destruct (str_eq_dec a b); split; congruence. Qed.

Lemma nodupb_NoDup (l : list str) : nodupb l = true -> NoDup l.
Proof.
  induction l as [|x l IH]; simpl; intros H; constructor.
  - apply andb_true_iff in H as [H _]. apply negb_true_iff in H.
    intros Hin. assert (E : existsb (str_eqb x) l = true).
    { apply existsb_exists. exists x. split; [assumption | now apply str_eqb_eq]. }
    congruence.
  - apply IH. now apply andb_true_iff in H as [_ H].
Qed.

(** Every pattern of the table is free of special characters and every
    replacement free of escapes. *)
Lemma table_plain :
  forallb (fun rl => plain_pattern (fst rl) && plain_template (snd rl))
    ALL_REPLACEMENTS = true.
Proof. by_computation. Qed.

(** No pattern can overlap a replacement of the table. *)
Lemma table_apart_replacements :
  forallb (fun a => forallb (fun b => apart (fst a) (snd b)) ALL_REPLACEMENTS)
    ALL_REPLACEMENTS = true.
Proof. by_computation. Qed.

(** No pattern can overlap another pattern, or a shifted copy of
    itself. *)
Lemma table_apart_patterns :
  forallb
    (fun a =>
       forallb (fun b => str_eqb (fst a) (fst b) || apart (fst a) (fst b))
         ALL_REPLACEMENTS)
    ALL_REPLACEMENTS = true.
Proof. by_computation. Qed.

Lemma table_unbordered :
  forallb (fun a => unbordered (fst a)) ALL_REPLACEMENTS = true.
Proof. by_computation. Qed.

Lemma table_patterns_nodup : NoDup (map fst ALL_REPLACEMENTS).
Proof. apply nodupb_NoDup. by_computation. Qed.

Lemma table_lines_nodup :
  NoDup (map (fun rl => change_line (fst rl) (snd rl)) ALL_REPLACEMENTS).
Proof. apply nodupb_NoDup. by_computation. Qed.

Lemma in_table_plain (rl : rule) :
  In rl ALL_REPLACEMENTS ->
  plain_pattern (fst rl) = true /\ plain_template (snd rl) = true.
Proof.
  intros H. pose proof table_plain as T. rewrite forallb_forall in T.
  now apply andb_true_iff, T.
Qed.

Lemma in_table_apart (a b : rule) :
  In a ALL_REPLACEMENTS -> In b ALL_REPLACEMENTS ->
  apart (fst a) (snd b) = true.
Proof.
  intros Ha Hb. pose proof table_apart_replacements as T.
  rewrite forallb_forall in T. specialize (T a Ha).
  rewrite forallb_forall in T. now apply T.
Qed.

Lemma in_table_apart_pattern (a b : rule) :
  In a ALL_REPLACEMENTS -> In b ALL_REPLACEMENTS -> fst a <> fst b ->
  apart (fst a) (fst b) = true.
Proof.
  intros Ha Hb Ne. pose proof table_apart_patterns as T.
  rewrite forallb_forall in T. specialize (T a Ha).
  rewrite forallb_forall in T. specialize (T b Hb).
  apply orb_true_iff in T as [T|T]; [|assumption].
  now apply str_eqb_eq in T.
Qed.

Lemma in_table_unbordered (a : rule) :
  In a ALL_REPLACEMENTS -> unbordered (fst a) = true.
Proof.
  intros Ha. pose proof table_unbordered as T.
  rewrite forallb_forall in T. now apply T.
Qed.

(** ** The literal loops *)

Lemma apply_all_cons (p r : str) (table : list rule) (s : str) :
  apply_all ((p, r) :: table) s = apply_all table (replace_all p r s).
Proof. reflexivity. Qed.

Lemma fired_cons (p r : str) (table : list rule) (s : str) :
  fired ((p, r) :: table) s =
  (if contains s p then [change_line p r] else [])
  ++ fired table (replace_all p r s).
Proof. reflexivity. Qed.

Lemma apply_all_app (t1 t2 : list rule) (s : str) :
  apply_all (t1 ++ t2) s = apply_all t2 (apply_all t1 s).
Proof. apply fold_left_app. Qed.

Lemma fired_app (t1 t2 : list rule) (s : str) :
  fired (t1 ++ t2) s = fired t1 s ++ fired t2 (apply_all t1 s).
Proof.
  revert s; induction t1 as [|[p r] t1 IH]; intros s; [reflexivity|].
  simpl. now rewrite IH, <- app_assoc.
Qed.

(** A round that does not find its pattern changes nothing, so the loop
    computes [apply_all] and collects [fired]. *)
Lemma literal_fold (table : list rule) (s : str) (changes : list str) :
  Forall (fun rl => fst rl <> []) table ->
  fold_left literal_step table (s, changes) =
  (apply_all table s, changes ++ fired table s).
Proof.
  intros H. revert s changes; induction H as [|[p r] table Hp _ IH];
    intros s changes.
  - simpl. now rewrite app_nil_r.
  - cbn [fold_left literal_step fired].
    change (apply_all ((p, r) :: table) s)
      with (apply_all table (replace_all p r s)).
    destruct (contains s p) eqn:E.
    + rewrite IH. now rewrite <- app_assoc.
    + rewrite (replace_all_absent p r s); [|exact Hp|now apply not_contains_iff].
      now rewrite IH.
Qed.

Lemma table_patterns_nonempty :
  Forall (fun rl => fst rl <> []) ALL_REPLACEMENTS.
Proof.
  apply Forall_forall. intros rl H.
  destruct (in_table_plain rl H) as [Hp _]. unfold plain_pattern in Hp.
  apply andb_true_iff in Hp as [Hp _]. apply negb_true_iff in Hp.
  apply str_eqb_neq. exact Hp.
Qed.

Lemma literal_substitute_eq (s : str) :
  literal_substitute s =
  (apply_all ALL_REPLACEMENTS s, fired ALL_REPLACEMENTS s).
Proof.
  unfold literal_substitute. now rewrite literal_fold by apply table_patterns_nonempty.
Qed.

Lemma fired_incl (table : list rule) (s l : str) :
  In l (fired table s) ->
  In l (map (fun rl => change_line (fst rl) (snd rl)) table).
Proof.
  revert s; induction table as [|[p r] table IH]; intros s; simpl; [easy|].
  rewrite in_app_iff. intros [H|H].
  - destruct (contains s p); [|easy]. destruct H as [<-|[]]. now left.
  - right. now apply (IH _ H).
Qed.

Lemma nothing_fires (table : list rule) (s : str) :
  (forall rl, In rl table -> ~ occurs (fst rl) s) ->
  apply_all table s = s /\ fired table s = [].
Proof.
  induction table as [|[p r] table IH]; intros H; [now split|].
  assert (Hp : ~ occurs p s) by (apply (H (p, r)); now left).
  assert (Ne : p <> []).
  { intros ->. apply Hp. now exists [], s. }
  rewrite apply_all_cons, fired_cons.
  rewrite replace_all_absent by assumption.
  apply not_contains_iff in Hp. rewrite Hp. cbn [app].
  apply IH. intros rl Hin. apply H. now right.
Qed.

(** Text that no pattern of the table can touch goes through all the
    rules as it is. *)
Lemma apply_all_around (table : list rule) (u a b : str) :
  (forall rl, In rl table -> apart (fst rl) u = true) ->
  apply_all table (a ++ u ++ b) =
  apply_all table a ++ u ++ apply_all table b.
Proof.
  revert a b; induction table as [|[p r] table IH]; intros a b H;
    [reflexivity|].
  rewrite apply_all_cons.
  rewrite replace_all_around by (apply (H (p, r)); now left).
  apply IH. intros rl Hin. apply H. now right.
Qed.

Lemma join_cons (sep g : str) (rest : list str) :
  rest <> [] -> join sep (g :: rest) = g ++ sep ++ join sep rest.
Proof. now destruct rest. Qed.

(** A rule [(p, r)] of a table, between the rules [t1] before it, whose
    patterns cannot touch [p], and the rules [t2] after it, whose
    patterns cannot touch [r]. *)
Section AroundARule.

Variables (t1 t2 : list rule) (p r : str).

Hypothesis before_apart : forall rl, In rl t1 -> apart (fst rl) p = true.
Hypothesis self_unbordered : unbordered p = true.
Hypothesis after_apart : forall rl, In rl t2 -> apart (fst rl) r = true.

(** An occurrence of the pattern is replaced by the replacement,
    whatever stands around it. *)
Lemma apply_all_at (a b : str) :
  apply_all (t1 ++ (p, r) :: t2) (a ++ p ++ b) =
  apply_all (t1 ++ (p, r) :: t2) a ++ r ++ apply_all (t1 ++ (p, r) :: t2) b.
Proof.
  rewrite !apply_all_app.
  rewrite apply_all_around by assumption.
  rewrite !apply_all_cons.
  rewrite replace_all_at by assumption.
  now apply apply_all_around.
Qed.

(** Every occurrence of the pattern is replaced, and the pieces
    between them are migrated on their own. *)
Lemma apply_all_join (pieces : list str) :
  pieces <> [] ->
  apply_all (t1 ++ (p, r) :: t2) (join p pieces) =
  join r (map (apply_all (t1 ++ (p, r) :: t2)) pieces).
Proof.
  induction pieces as [|g pieces IH]; [easy | intros _].
  destruct pieces as [|g' pieces]; [reflexivity|].
  rewrite (join_cons p g) by easy. cbn [map].
  rewrite (join_cons r) by easy.
  rewrite apply_all_at. now rewrite IH.
Qed.

End AroundARule.

(** Once a rule has removed its pattern, the rules after it do not bring
    it back. *)
Lemma apply_all_keeps_absent (table : list rule) (q s : str) :
  (forall rl, In rl table -> apart q (snd rl) = true /\ fst rl <> []) ->
  ~ occurs q s -> ~ occurs q (apply_all table s).
Proof.
  revert s; induction table as [|[p r] table IH]; intros s H Hno;
    [assumption|].
  rewrite apply_all_cons.
  apply IH; [intros rl Hin; apply H; now right|].
  destruct (H (p, r)) as [Hap Hp]; [now left|].
  now apply replace_all_brings_none.
Qed.

Lemma apply_all_removes (t1 t2 : list rule) (p r s : str) :
  apart p r = true ->
  (forall rl, In rl t2 -> apart p (snd rl) = true /\ fst rl <> []) ->
  ~ occurs p (apply_all (t1 ++ (p, r) :: t2) s).
Proof.
  intros Hap H. rewrite apply_all_app.
  rewrite apply_all_cons.
  apply apply_all_keeps_absent; [assumption|].
  now apply replace_all_removes.
Qed.

(** ** The loops of [process_file] compute the literal substitution *)

Lemma for_each_cons {A S : Type} (x : A) (xs : list A)
  (body : A -> S -> IO S) (s : S) (w : world) :
  for_each (x :: xs) body s w =
  match body x s w with
  | (w', Ok s') => for_each xs body s' w'
  | (w', Raise e) => (w', Raise e)
  end.
Proof. reflexivity. Qed.

Lemma replace_round_run (p r s : str) (changes : list str) (w : world) :
  replace_round (p, r) (s, changes) w =
  (w,
   match Re.search p s with
   | Raise e => Raise e
   | Ok m =>
       if truthy m then
         match Re.sub p r s with
         | Ok s' => Ok (s', changes ++ [change_line p r])
         | Raise e => Raise e
         end
       else Ok (s, changes)
   end).
Proof.
  unfold replace_round, bind, pure_call, ret.
  destruct (Re.search p s) as [m|e]; [|reflexivity].
  destruct (truthy m); [|reflexivity]. now destruct (Re.sub p r s).
Qed.

Lemma apply_replacements_run (table : list rule) (vars : str * list str)
  (w : world) :
  (forall rl, In rl table ->
     plain_pattern (fst rl) = true /\ plain_template (snd rl) = true) ->
  apply_replacements table vars w = (w, Ok (fold_left literal_step table vars)).
Proof.
  unfold apply_replacements.
  revert vars; induction table as [|[p r] table IH]; intros [s changes] H;
    [reflexivity|].
  destruct (H (p, r) (or_introl eq_refl)) as [Hp Hr]. cbn [fst snd] in Hp, Hr.
  destruct (re_search_plain p s Hp) as [m [Em Et]].
  rewrite for_each_cons, replace_round_run, Em, Et.
  rewrite (re_sub_plain p r s Hp Hr). cbn [fold_left literal_step].
  destruct (contains s p); apply IH; intros rl Hin; apply H; now right.
Qed.

Lemma substitute_run (content : str) (w : world) :
  substitute content w = (w, Ok (literal_substitute content)).
Proof.
  unfold substitute, literal_substitute, ALL_REPLACEMENTS.
  unfold bind.
  rewrite apply_replacements_run.
  2:{ intros rl H. apply in_table_plain. unfold ALL_REPLACEMENTS.
      apply in_or_app. now left. }
  rewrite apply_replacements_run.
  2:{ intros rl H. apply in_table_plain. unfold ALL_REPLACEMENTS.
      apply in_or_app. right. apply in_or_app. now left. }
  rewrite apply_replacements_run.
  2:{ intros rl H. apply in_table_plain. unfold ALL_REPLACEMENTS.
      apply in_or_app. right. apply in_or_app. now right. }
  now rewrite !fold_left_app.
Qed.

Lemma print_lines (ls : list str) (w : world) :
  for_each ls (fun change _ => print (Plain change)) tt w =
  (say_all (map Plain ls) w, Ok tt).
Proof.
  revert w; induction ls as [|l ls IH]; intros [f ev out].
  - unfold say_all. cbn. now rewrite app_nil_r.
  - cbn [for_each]. unfold bind, print at 1. rewrite IH.
    unfold say, say_all. cbn. now rewrite <- app_assoc.
Qed.

(** What the [try] block does, case by case. *)
Lemma process_file_try_run (file_path : path) (w : world) :
  process_file_try file_path w =
  match read_text file_path w with
  | (w1, Raise e) => (w1, Raise e)
  | (w1, Ok s) =>
      let s' := apply_all ALL_REPLACEMENTS s in
      if str_eqb s' s then (w1, Ok false)
      else
        match write_text file_path s' w1 with
        | (w2, Raise e) => (w2, Raise e)
        | (w2, Ok _) =>
            (say_all (Updated file_path
                        :: map Plain (fired ALL_REPLACEMENTS s)) w2,
             Ok true)
        end
  end.
Proof.
  unfold process_file_try. unfold bind at 1.
  destruct (read_text file_path w) as [w1 [s|e]]; [|reflexivity].
  unfold bind at 1. rewrite substitute_run, literal_substitute_eq.
  cbv zeta. destruct (str_eqb (apply_all ALL_REPLACEMENTS s) s);
    cbn [negb]; [reflexivity|].
  unfold bind at 1.
  destruct (write_text file_path (apply_all ALL_REPLACEMENTS s) w1)
    as [w2 [[]|e]]; [|reflexivity].
  unfold bind at 1. unfold print at 1. unfold bind at 1.
  rewrite print_lines. unfold ret, say, say_all. cbn.
  now rewrite <- app_assoc.
Qed.

(** What a call of [process_file] does, case by case. *)
Lemma process_file_run (file_path : path) (w : world) :
  process_file file_path w =
  match read_text file_path w with
  | (w1, Raise e) => (say (Error_processing file_path e) w1, Ok false)
  | (w1, Ok s) =>
      let s' := apply_all ALL_REPLACEMENTS s in
      if str_eqb s' s then (w1, Ok false)
      else
        match write_text file_path s' w1 with
        | (w2, Raise e) => (say (Error_processing file_path e) w2, Ok false)
        | (w2, Ok _) =>
            (say_all (Updated file_path
                        :: map Plain (fired ALL_REPLACEMENTS s)) w2,
             Ok true)
        end
  end.
Proof.
  unfold process_file, try_except. rewrite process_file_try_run.
  destruct (read_text file_path w) as [w1 [s|e]].
  - cbv zeta. destruct (str_eqb (apply_all ALL_REPLACEMENTS s) s);
      [reflexivity|].
    now destruct (write_text file_path (apply_all ALL_REPLACEMENTS s) w1)
      as [w2 [[]|e]].
  - reflexivity.
Qed.

(** [process_file] returns, whatever the file system holds. *)
Lemma process_file_returns (file_path : path) (w : world) :
  exists w' updated, process_file file_path w = (w', Ok updated).
Proof.
  rewrite process_file_run.
  destruct (read_text file_path w) as [w1 [s|e]]; [|eauto].
  cbv zeta. destruct (str_eqb _ s); [eauto|].
  destruct (write_text _ _ w1) as [w2 [[]|e]]; eauto.
Qed.

(** ** Files and paths *)

Lemma assoc_set_same (d : str) (v : node) (es : list (str * node)) :
  assoc d (assoc_set d v es) = Some v.
Proof.
  induction es as [|[k x] es IH]; simpl.
  - now rewrite (proj2 (str_eqb_eq d d) eq_refl).
  - destruct (str_eqb k d) eqn:E; simpl; now rewrite E.
Qed.

Lemma assoc_set_other (k d : str) (v : node) (es : list (str * node)) :
  k <> d -> assoc k (assoc_set d v es) = assoc k es.
Proof.
  intros Ne. induction es as [|[k' x] es IH]; simpl.
  - apply str_eqb_neq in Ne.
    destruct (str_eqb d k) eqn:E; [|reflexivity].
    apply str_eqb_eq in E. subst. now rewrite (proj2 (str_eqb_eq k k) eq_refl) in Ne.
  - destruct (str_eqb k' d) eqn:E; simpl.
    + apply str_eqb_eq in E. subst k'.
      destruct (str_eqb d k) eqn:E'; [|reflexivity].
      apply str_eqb_eq in E'. congruence.
    + now rewrite IH.
Qed.

Lemma store_cons (es : list (str * node)) (d : str) (p : path) (c v : node) :
  assoc d es = Some c ->
  store (Dir es) (d :: p) v =
  option_map (fun c' => Dir (assoc_set d c' es)) (store c p v).
Proof.
  intros E. cbn [store]. rewrite E. destruct p; [reflexivity|].
  now destruct (store c (s :: p) v).
Qed.

(** Writing over a file that is there succeeds. *)
Lemma store_over_file (n : node) (p : path) (f : file) (v : node) :
  lookup n p = Some (File f) -> exists n', store n p v = Some n'.
Proof.
  revert n; induction p as [|d p IH]; intros n H; [now exists v|].
  destruct n as [|es]; [discriminate|]. cbn [lookup] in H.
  destruct (assoc d es) as [c|] eqn:E; [|discriminate].
  rewrite (store_cons es d p c v E).
  destruct (IH c H) as [c' ->]. now eexists.
Qed.

(** Writing over a file changes that file and nothing else: the same
    paths exist, with the same kinds, and every other file is as it
    was. *)
Lemma store_over_file_frame (p : path) (f f' : file) :
  forall (n n' : node),
    lookup n p = Some (File f) -> store n p (File f') = Some n' ->
    file_at n' p = Some f' /\
    forall q, kind_at n' q = kind_at n q /\
              (q <> p -> file_at n' q = file_at n q).
Proof.
  unfold file_at, kind_at.
  induction p as [|d p IH]; intros n n' H S.
  - cbn in H, S. injection H as ->. injection S as <-. split; [reflexivity|].
    intros [|k q]; cbn; split; try reflexivity; easy.
  - destruct n as [|es]; [discriminate|]. cbn [lookup] in H.
    destruct (assoc d es) as [c|] eqn:E; [|discriminate].
    rewrite (store_cons es d p c _ E) in S.
    destruct (store c p (File f')) as [c'|] eqn:Sc; [|discriminate].
    injection S as <-. destruct (IH c c' H Sc) as [Hp Hq]. split.
    + cbn [lookup]. now rewrite assoc_set_same.
    + intros [|k q]; [cbn; split; [reflexivity | easy]|].
      cbn [lookup]. destruct (str_eq_dec k d) as [->|Ne].
      * rewrite assoc_set_same, E. destruct (Hq q) as [Hk Hf].
        split; [exact Hk|]. intros Hne. apply Hf. congruence.
      * rewrite assoc_set_other by assumption. now split.
Qed.

(** ** Counting occurrences *)

Lemma occ_count_zero (p s : str) : occ_count p s = 0 <-> ~ occurs p s.
Proof.
  rewrite <- not_contains_iff. induction s as [|c s IH].
  - cbn [occ_count contains]. destruct (startswith [] p); cbn; split;
      (discriminate || reflexivity).
  - cbn [occ_count contains]. destruct (startswith (c :: s) p); cbn.
    + split; discriminate.
    + exact IH.
Qed.

(** No occurrence of an unbordered [p] starts inside an occurrence of
    it: read from inside a [p], what counts is what follows it. *)
Lemma occ_count_inside (p rest : str) :
  unbordered p = true ->
  forall u v, p = v ++ u -> v <> [] ->
    occ_count p (u ++ rest) = occ_count p rest.
Proof.
  intros Hu. induction u as [|x u IH]; intros v Hv Ne; [reflexivity|].
  cbn [app occ_count].
  rewrite (IH (v ++ [x])); [| now rewrite <- app_assoc | now destruct v].
  destruct (startswith (x :: u ++ rest) p) eqn:E; [|reflexivity].
  exfalso. apply startswith_iff in E as [t E].
  assert (E' : [] ++ p ++ rest = v ++ p ++ t).
  { cbn [app]. rewrite Hv at 1. rewrite <- app_assoc. cbn [app].
    now rewrite E. }
  apply (unbordered_disjoint _ _ _ _ _ Hu) in E'.
  pose proof (length_pos _ Ne) as Lv.
  apply (f_equal (@length _)) in Hv. rewrite length_app in Hv.
  cbn [length] in E', Hv. lia.
Qed.

Lemma occ_count_hit (p rest : str) :
  unbordered p = true -> occ_count p (p ++ rest) = S (occ_count p rest).
Proof.
  intros Hu. pose proof (unbordered_nonempty _ Hu) as Ne.
  destruct p as [|c p]; [easy|].
  change ((c :: p) ++ rest) with (c :: p ++ rest).
  cbn [occ_count].
  change (c :: p ++ rest) with ((c :: p) ++ rest). rewrite startswith_app.
  rewrite (occ_count_inside (c :: p) rest Hu p [c]); easy.
Qed.

Lemma find_count (p s pre rest : str) :
  unbordered p = true -> find p s = Some (pre, rest) ->
  occ_count p s = S (occ_count p rest) /\ ~ occurs p pre.
Proof.
  intros Hu. pose proof (unbordered_nonempty _ Hu) as Ne.
  revert pre; induction s as [|c s IH]; intros pre; cbn [find].
  - destruct (startswith [] p) eqn:E; [|discriminate].
    apply startswith_iff in E as [t E]. symmetry in E.
    now apply app_eq_nil in E as [-> _].
  - destruct (startswith (c :: s) p) eqn:E.
    + intros H; injection H as <- <-. split.
      * rewrite (startswith_skipn _ _ E) at 1. now apply occ_count_hit.
      * intros [a [b H]]. symmetry in H. apply app_eq_nil in H as [_ H].
        now apply app_eq_nil in H as [-> _].
    + destruct (find p s) as [[pre' rest']|] eqn:F; [|discriminate].
      intros H; injection H as <- <-.
      destruct (IH pre' eq_refl) as [Hc Hno]. split.
      * cbn [occ_count]. now rewrite E.
      * intros [[|x a] [b H]].
        -- destruct (find_some p [] s pre' rest' Ne F) as [Hs _].
           rewrite Hs in E. cbn [app] in H.
           change (c :: pre' ++ p ++ rest') with ((c :: pre') ++ p ++ rest') in E.
           rewrite H, <- app_assoc, startswith_app in E. discriminate.
        -- injection H as _ H. apply Hno. now exists a, b.
Qed.

(** A content is its occurrences of [p] and the pieces between them. *)
Lemma split_at_occurrences (p : str) :
  unbordered p = true ->
  forall (n : nat) (s : str), length s <= n ->
    exists pieces,
      s = join p pieces /\
      length pieces = S (occ_count p s) /\
      Forall (fun g => ~ occurs p g) pieces.
Proof.
  intros Hu. pose proof (unbordered_nonempty _ Hu) as Ne.
  induction n as [|n IH]; intros s Ln.
  - destruct s; [|simpl in Ln; lia]. exists [[]]. split; [reflexivity|].
    assert (Z : ~ occurs p []).
    { intros [a [b H]]. symmetry in H. apply app_eq_nil in H as [_ H].
      now apply app_eq_nil in H as [-> _]. }
    split; [|now repeat constructor].
    apply occ_count_zero in Z. now rewrite Z.
  - destruct (find p s) as [[pre rest]|] eqn:F.
    + destruct (find_some p [] s pre rest Ne F) as [Hs _].
      destruct (find_count p s pre rest Hu F) as [Hc Hno].
      destruct (IH rest) as [pieces [Hj [Hl Hf]]].
      { rewrite Hs, !length_app in Ln. pose proof (length_pos _ Ne). lia. }
      exists (pre :: pieces). split; [|split].
      * rewrite join_cons by (now destruct pieces). now rewrite <- Hj.
      * cbn [length]. now rewrite Hl, Hc.
      * now constructor.
    + assert (Z : ~ occurs p s).
      { apply not_contains_iff. rewrite <- find_truthy, F. reflexivity. }
      exists [s]. split; [reflexivity|]. split; [|now repeat constructor].
      apply occ_count_zero in Z. now rewrite Z.
Qed.

(** How the table splits around one of its rules. *)
Lemma table_split (p r : str) :
  In (p, r) ALL_REPLACEMENTS ->
  exists t1 t2,
    ALL_REPLACEMENTS = t1 ++ (p, r) :: t2 /\
    (forall rl, In rl t1 -> apart (fst rl) p = true) /\
    unbordered p = true /\
    (forall rl, In rl t2 -> apart (fst rl) r = true) /\
    apart p r = true /\
    (forall rl, In rl t2 -> apart p (snd rl) = true /\ fst rl <> []) /\
    ~ In (change_line p r)
        (map (fun rl => change_line (fst rl) (snd rl)) (t1 ++ t2)).
Proof.
  intros Hin. destruct (in_split _ _ Hin) as [t1 [t2 E]]. exists t1, t2.
  assert (I1 : forall rl, In rl t1 -> In rl ALL_REPLACEMENTS).
  { intros rl H. rewrite E. apply in_or_app. now left. }
  assert (I2 : forall rl, In rl t2 -> In rl ALL_REPLACEMENTS).
  { intros rl H. rewrite E. apply in_or_app. right. now right. }
  pose proof table_patterns_nodup as Nd. rewrite E, map_app in Nd.
  cbn [map fst] in Nd. pose proof (NoDup_remove_2 _ _ _ Nd) as Np.
  pose proof table_lines_nodup as Nl. rewrite E, map_app in Nl.
  cbn [map fst snd] in Nl. apply NoDup_remove_2 in Nl.
  split; [exact E|]. split; [|split; [|split; [|split; [|split]]]].
  - intros rl H. apply (in_table_apart_pattern rl (p, r)); auto.
    cbn [fst]. intros Eq. apply Np. apply in_or_app. left.
    rewrite <- Eq. now apply in_map.
  - now apply (in_table_unbordered (p, r)).
  - intros rl H. apply (in_table_apart rl (p, r)); auto.
  - now apply (in_table_apart (p, r) (p, r)).
  - intros rl H. split.
    + apply (in_table_apart (p, r) rl); auto.
    + pose proof table_patterns_nonempty as T. rewrite Forall_forall in T.
      apply T; auto.
  - now rewrite map_app.
Qed.

(** A rule whose pattern is in the content enters [changes_made] once. *)
Lemma fired_once (p r s : str) :
  In (p, r) ALL_REPLACEMENTS -> occurs p s ->
  count_occ str_eq_dec (fired ALL_REPLACEMENTS s) (change_line p r) = 1.
Proof.
  intros Hin [a [b Hs]].
  destruct (table_split p r Hin) as (t1 & t2 & E & H1 & Hu & H2 & _ & _ & Nl).
  rewrite E, fired_app, fired_cons, !count_occ_app.
  rewrite map_app, in_app_iff in Nl.
  rewrite (proj1 (count_occ_not_In _ _ _)).
  2:{ intros H. apply Nl. left. now apply fired_incl in H. }
  rewrite (proj1 (count_occ_not_In _ (fired t2 _) _)).
  2:{ intros H. apply Nl. right. now apply fired_incl in H. }
  assert (C : contains (apply_all t1 s) p = true).
  { apply contains_iff. rewrite Hs, apply_all_around by assumption.
    apply occurs_self. }
  rewrite C. cbn [count_occ].
  now destruct (str_eq_dec (change_line p r) (change_line p r)).
Qed.

(** After the migration no pattern of the table is left. *)
Lemma migrated_clean (p r s : str) :
  In (p, r) ALL_REPLACEMENTS -> ~ occurs p (apply_all ALL_REPLACEMENTS s).
Proof.
  intros Hin.
  destruct (table_split p r Hin) as (t1 & t2 & E & _ & _ & _ & Hap & H2 & _).
  rewrite E. now apply apply_all_removes.
Qed.

(** ** The walk *)

Lemma node_induction (P : node -> Prop) :
  (forall f, P (File f)) ->
  (forall es, Forall (fun e => P (snd e)) es -> P (Dir es)) ->
  forall n, P n.
Proof.
  intros Hf Hd. fix IH 1. intros [f|es]; [apply Hf|]. apply Hd.
  induction es as [|[d c] es IHes]; constructor; [apply IH | exact IHes].
Qed.

Lemma os_walk_dir (keep : str -> bool) (top : path) (es : list (str * node)) :
  os_walk keep top (Dir es) =
  (top, filter keep (dir_names es), file_names es) ::
  flat_map
    (fun e =>
       if is_dir (snd e) && keep (fst e)
       then os_walk keep (top ++ [fst e]) (snd e) else [])
    es.
Proof.
  cbn [os_walk]. f_equal.
  induction es as [|[d c] es IH]; [reflexivity|].
  cbn [flat_map fst snd]. now rewrite IH.
Qed.

Lemma flat_map_step {A B : Type} (f : A -> list B) (x : A) (l : list A) :
  flat_map f (x :: l) = f x ++ flat_map f l.
Proof. reflexivity. Qed.

Lemma flat_map_nested {A B C : Type} (f : B -> list C) (g : A -> list B)
  (l : list A) :
  flat_map f (flat_map g l) = flat_map (fun x => flat_map f (g x)) l.
Proof.
  induction l as [|x l IH]; [reflexivity|].
  now rewrite !flat_map_step, flat_map_app, IH.
Qed.

Lemma rust_files_of_dir (top : path) (es : list (str * node)) :
  rust_files_of top (Dir es) =
  map (fun file => top ++ [file]) (filter is_rust_file (file_names es)) ++
  flat_map
    (fun e =>
       if is_dir (snd e) && keep_dir (fst e)
       then rust_files_of (top ++ [fst e]) (snd e) else [])
    es.
Proof.
  unfold rust_files_of. rewrite os_walk_dir, flat_map_step, flat_map_nested.
  f_equal. apply flat_map_ext. intros [d c]. cbn [fst snd].
  now destruct (is_dir c && keep_dir d).
Qed.

Lemma in_file_names (name : str) (es : list (str * node)) :
  In name (file_names es) <->
  existsb (fun e => str_eqb (fst e) name && negb (is_dir (snd e))) es = true.
Proof.
  unfold file_names. rewrite in_map_iff, existsb_exists. split.
  - intros [e [<- H]]. apply filter_In in H as [H1 H2]. exists e.
    split; [assumption|]. rewrite H2.
    now rewrite (proj2 (str_eqb_eq _ _) eq_refl).
  - intros [e [H1 H2]]. apply andb_true_iff in H2 as [H2 H3].
    apply str_eqb_eq in H2. exists e. split; [assumption|].
    apply filter_In. now split.
Qed.

(** The files found are the regular files with a Rust name under
    directories that are all kept. *)
Lemma rust_files_of_iff (n : node) :
  forall (top file_path : path),
    In file_path (rust_files_of top n) <->
    exists dirs name,
      file_path = top ++ dirs ++ [name] /\
      has_file n dirs name = true /\
      is_rust_file name = true /\
      forallb keep_dir dirs = true.
Proof.
  induction n as [f|es IH] using node_induction; intros top file_path.
  - split; [intros [] | intros (dirs & name & _ & H & _); discriminate].
  - rewrite rust_files_of_dir, in_app_iff, in_map_iff, in_flat_map. split.
    + intros [[file [<- H]] | [[d c] [Hin H]]].
      * apply filter_In in H as [H1 H2]. exists [], file.
        repeat split; trivial. cbn [has_file]. now apply in_file_names.
      * cbn [fst snd] in H.
        destruct (is_dir c && keep_dir d) eqn:E; [|destruct H].
        apply andb_true_iff in E as [Ed Ek].
        rewrite Forall_forall in IH.
        apply (IH (d, c) Hin) in H as (dirs & name & -> & Hf & Hr & Hk).
        cbn [fst snd] in Hf. exists (d :: dirs), name. split; [now rewrite <- app_assoc|].
        split; [|split; [assumption|]].
        -- cbn [has_file]. apply existsb_exists. exists (d, c).
           split; [assumption|]. cbn [fst snd].
           now rewrite (proj2 (str_eqb_eq d d) eq_refl), Ed, Hf.
        -- cbn [forallb]. now rewrite Ek, Hk.
    + intros (dirs & name & -> & Hf & Hr & Hk).
      destruct dirs as [|d dirs]; cbn [has_file] in Hf.
      * left. exists name. split; [reflexivity|]. apply filter_In.
        split; [now apply in_file_names | assumption].
      * right. apply existsb_exists in Hf as [[d' c] [Hin H]].
        cbn [fst snd] in H. apply andb_true_iff in H as [H Hc].
        apply andb_true_iff in H as [Hd Hdir]. apply str_eqb_eq in Hd.
        subst d'. cbn [forallb] in Hk. apply andb_true_iff in Hk as [Hk Hks].
        exists (d, c). split; [assumption|]. cbn [fst snd].
        rewrite Hdir, Hk. cbn [andb]. rewrite Forall_forall in IH.
        apply (IH (d, c) Hin). exists dirs, name.
        split; [now rewrite <- app_assoc|]. now repeat split.
Qed.

Lemma find_rust_files_run (root_dir : path) (w : world) :
  exists evs,
    find_rust_files root_dir w =
    (mkWorld (fs w) (events w ++ evs) (stdout w),
     Ok (match lookup (fs w) root_dir with
         | Some n => rust_files_of root_dir n
         | None => []
         end)) /\
    opened_r evs = [] /\ opened_w evs = [].
Proof.
  unfold find_rust_files. eexists. split.
  - f_equal. f_equal. unfold rust_files_of.
    now destruct (lookup (fs w) root_dir).
  - generalize (match lookup (fs w) root_dir with
                | Some n => os_walk keep_dir root_dir n
                | None => []
                end).
    intros l. unfold opened_r, opened_w.
    induction l as [|t l [IH1 IH2]]; [now split|]. cbn. now split.
Qed.

(** ** The loop over the files *)

Lemma count_file_run (f : path) (c : nat) (w : world) :
  count_file f c w =
  match process_file f w with
  | (w1, Ok true) => (say Blank w1, Ok (c + 1))
  | (w1, Ok false) => (w1, Ok c)
  | (w1, Raise e) => (w1, Raise e)
  end.
Proof.
  unfold count_file, bind. now destruct (process_file f w) as [w1 [[|]|e]].
Qed.

Lemma process_all_from (files : list path) (c : nat) (w : world) :
  for_each files count_file c w =
  match process_all files w with
  | (w', Ok n) => (w', Ok (c + n))
  | (w', Raise e) => (w', Raise e)
  end.
Proof.
  unfold process_all. revert c w; induction files as [|f files IH]; intros c w.
  - cbn. unfold ret. now rewrite Nat.add_0_r.
  - rewrite !for_each_cons, !count_file_run.
    destruct (process_file f w) as [w1 [[|]|e]]; [| |reflexivity].
    + rewrite (IH (c + 1)), (IH (0 + 1)).
      destruct (for_each files count_file 0 (say Blank w1)) as [w2 [n|e]];
        [|reflexivity].
      f_equal. f_equal. lia.
    + rewrite (IH c), (IH 0).
      now destruct (for_each files count_file 0 w1) as [w2 [n|e]].
Qed.

Lemma process_all_cons (f : path) (files : list path) (w : world) :
  process_all (f :: files) w =
  match process_file f w with
  | (w1, Ok true) =>
      match process_all files (say Blank w1) with
      | (w2, Ok n) => (w2, Ok (S n))
      | (w2, Raise e) => (w2, Raise e)
      end
  | (w1, Ok false) => process_all files w1
  | (w1, Raise e) => (w1, Raise e)
  end.
Proof.
  unfold process_all at 1. rewrite for_each_cons, count_file_run.
  destruct (process_file f w) as [w1 [[|]|e]]; [| |reflexivity].
  - now rewrite process_all_from.
  - rewrite process_all_from.
    now destruct (process_all files w1) as [w2 [n|e]].
Qed.

(** The loop goes through all the files and returns. *)
Lemma process_all_returns (files : list path) (w : world) :
  exists w' n, process_all files w = (w', Ok n).
Proof.
  revert w; induction files as [|f files IH]; intros w.
  - now exists w, 0.
  - rewrite process_all_cons.
    destruct (process_file_returns f w) as [w1 [b ->]]. destruct b.
    + destruct (IH (say Blank w1)) as [w2 [n ->]]. eauto.
    + apply IH.
Qed.

Lemma process_all_app (l1 l2 : list path) (w w1 : world) (n1 : nat) :
  process_all l1 w = (w1, Ok n1) ->
  process_all (l1 ++ l2) w =
  match process_all l2 w1 with
  | (w2, Ok n2) => (w2, Ok (n1 + n2))
  | (w2, Raise e) => (w2, Raise e)
  end.
Proof.
  revert w w1 n1; induction l1 as [|f l1 IH]; intros w w1 n1 H.
  - cbn in H. injection H as <- <-. cbn [app].
    now destruct (process_all l2 w) as [w2 [n|e]].
  - cbn [app]. rewrite process_all_cons in *.
    destruct (process_file f w) as [w' [[|]|e]]; [| |discriminate].
    + destruct (process_all l1 (say Blank w')) as [w'' [n|e]] eqn:E;
        [|discriminate].
      injection H as <- <-. rewrite (IH _ _ _ E).
      now destruct (process_all l2 w'') as [w2 [n2|e]].
    + now apply IH.
Qed.

Lemma opened_r_app (a b : list event) :
  opened_r (a ++ b) = opened_r a ++ opened_r b.
Proof. apply flat_map_app. Qed.

Lemma opened_w_app (a b : list event) :
  opened_w (a ++ b) = opened_w a ++ opened_w b.
Proof. apply flat_map_app. Qed.

Lemma read_text_events (p : path) (w w1 : world) (r : result str) :
  read_text p w = (w1, r) ->
  fs w1 = fs w /\ stdout w1 = stdout w /\
  events w1 = events w ++ [EvOpen p R].
Proof.
  unfold read_text. cbn [fs log]. intros H.
  destruct (lookup (fs w) p) as [[f|es]|];
    [destruct (readable f); [destruct (data f)|] | |];
    injection H as <- _; now cbn.
Qed.

Lemma write_text_events (p : path) (s : str) (w w1 : world) (r : result unit) :
  write_text p s w = (w1, r) ->
  stdout w1 = stdout w /\ events w1 = events w ++ [EvOpen p W] /\
  (forall e, r = Raise e -> fs w1 = fs w).
Proof.
  unfold write_text. cbn [fs log events stdout]. intros H.
  destruct (lookup (fs w) p) as [[f|es]|];
    [destruct (writable f)| |].
  - destruct (store (fs w) p _); injection H as <- <-; cbn; repeat split;
      intros; discriminate || reflexivity.
  - injection H as <- <-. now cbn.
  - injection H as <- <-. now cbn.
  - destruct (store (fs w) p _); injection H as <- <-; cbn; repeat split;
      intros; discriminate || reflexivity.
Qed.

(** Each call opens its file for reading, once. *)
Lemma process_file_reads (p : path) (w w' : world) (r : result bool) :
  process_file p w = (w', r) ->
  opened_r (events w') = opened_r (events w) ++ [p].
Proof.
  rewrite process_file_run.
  destruct (read_text p w) as [w1 [s|e]] eqn:Er;
    apply read_text_events in Er as (_ & _ & Ev).
  - cbv zeta. destruct (str_eqb _ s).
    + intros H; injection H as <- _. rewrite Ev, opened_r_app. reflexivity.
    + destruct (write_text p _ w1) as [w2 [[]|e]] eqn:Ew;
        apply write_text_events in Ew as (_ & Ev2 & _);
        intros H; injection H as <- _; cbn [events say say_all];
        rewrite Ev2, Ev, !opened_r_app; cbn; now rewrite app_nil_r.
  - intros H; injection H as <- _. cbn [events say say_all].
    rewrite Ev, opened_r_app. reflexivity.
Qed.

Lemma process_all_reads (files : list path) (w w' : world) (r : result nat) :
  process_all files w = (w', r) ->
  opened_r (events w') = opened_r (events w) ++ files.
Proof.
  revert w w' r; induction files as [|f files IH]; intros w w' r.
  - cbn. intros H; injection H as <- _. now rewrite app_nil_r.
  - rewrite process_all_cons.
    destruct (process_file_returns f w) as [w1 [b E]]. rewrite E.
    apply process_file_reads in E. destruct b.
    + destruct (process_all files (say Blank w1)) as [w2 [n|e]] eqn:E2;
        apply IH in E2; intros H; injection H as <- _;
        rewrite E2; cbn [events say say_all]; rewrite E;
        now rewrite <- app_assoc.
    + intros H. apply IH in H. rewrite H, E. now rewrite <- app_assoc.
Qed.

(** ** Reading and writing one file *)

Lemma read_text_ok (p : path) (w w1 : world) (s : str) :
  read_text p w = (w1, Ok s) ->
  w1 = log (EvOpen p R) w /\
  exists f, file_at (fs w) p = Some f /\ data f = Text s /\ readable f = true.
Proof.
  unfold read_text, file_at. cbn [fs log].
  destruct (lookup (fs w) p) as [[f|es]|]; try discriminate.
  destruct (readable f) eqn:Er; [|discriminate].
  destruct (data f) eqn:Ed; [|discriminate].
  intros H; injection H as <- <-. split; [reflexivity|]. now exists f.
Qed.

Lemma write_text_ok (p : path) (s : str) (w w2 : world) (f : file) (u : unit) :
  write_text p s w = (w2, Ok u) -> file_at (fs w) p = Some f ->
  exists fs',
    store (fs w) p (File (mkFile (Text s) (readable f) true)) = Some fs' /\
    w2 = mkWorld fs' (events w ++ [EvOpen p W]) (stdout w).
Proof.
  unfold write_text, file_at. cbn [fs log events stdout].
  destruct (lookup (fs w) p) as [[f0|es]|]; try discriminate.
  intros H E; injection E as ->.
  destruct (writable f); [|discriminate].
  destruct (store (fs w) p _) as [fs'|]; [|discriminate].
  injection H as <-. now exists fs'.
Qed.

(** What a successful write does to the files. *)
Lemma write_text_frame (p : path) (s : str) (w w2 : world) (f : file) (u : unit) :
  write_text p s w = (w2, Ok u) -> file_at (fs w) p = Some f ->
  file_at (fs w2) p = Some (mkFile (Text s) (readable f) true) /\
  (forall q, kind_at (fs w2) q = kind_at (fs w) q) /\
  (forall q, q <> p -> file_at (fs w2) q = file_at (fs w) q) /\
  events w2 = events w ++ [EvOpen p W] /\ stdout w2 = stdout w.
Proof.
  intros H E. destruct (write_text_ok p s w w2 f u H E) as [fs' [S ->]].
  cbn [fs events stdout].
  assert (L : lookup (fs w) p = Some (File f)).
  { unfold file_at in E. destruct (lookup (fs w) p) as [[f0|]|]; congruence. }
  destruct (store_over_file_frame p f _ (fs w) fs' L S) as [Hp Hq].
  split; [exact Hp|]. split; [intros q; apply Hq|].
  split; [intros q; apply Hq|]. now split.
Qed.

(* ================================================================= *)
(** * The properties of the script *)

(** C1: when the [try] block of [process_file] ends without an exception,
    the file then holds the result of applying every rule of
    [UI_REPLACEMENTS], then [DOMAIN_REPLACEMENTS], then
    [STORE_REPLACEMENTS], each to the output of the one before, to the
    content it held; and [process_file] returns [True], and the file is
    opened for writing, exactly when that result differs from the
    original content. *)
Theorem process_file_final_content (file_path : path) (w w' : world)
  (updated : bool) :
  process_file_try file_path w = (w', Ok updated) ->
  exists (f f' : file) (original : str),
    file_at (fs w) file_path = Some f /\ data f = Text original /\
    file_at (fs w') file_path = Some f' /\
    data f' =
      Text (fold_left apply_rule
              (UI_REPLACEMENTS ++ DOMAIN_REPLACEMENTS ++ STORE_REPLACEMENTS)
              original) /\
    process_file file_path w = (w', Ok updated) /\
    (updated = true <->
     fold_left apply_rule
       (UI_REPLACEMENTS ++ DOMAIN_REPLACEMENTS ++ STORE_REPLACEMENTS)
       original <> original) /\
    opened_w (events w') =
      opened_w (events w) ++ (if updated then [file_path] else []).
Proof.
  intros H. pose proof H as H0.
  unfold process_file, try_except. rewrite H0.
  rewrite process_file_try_run in H.
  change (fold_left apply_rule
            (UI_REPLACEMENTS ++ DOMAIN_REPLACEMENTS ++ STORE_REPLACEMENTS))
    with (apply_all ALL_REPLACEMENTS).
  destruct (read_text file_path w) as [w1 [s|e]] eqn:Er; [|discriminate].
  destruct (read_text_ok _ _ _ _ Er) as [-> (f & Hf & Hd & _)].
  cbv zeta in H.
  destruct (str_eqb (apply_all ALL_REPLACEMENTS s) s) eqn:Eq.
  - injection H as <- <-. apply str_eqb_eq in Eq.
    exists f, f, s. cbn [fs log events]. rewrite Eq, opened_w_app.
    repeat split; trivial; try discriminate; try congruence.
  - destruct (write_text file_path _ _) as [w2 [[]|e]] eqn:Ew;
      [|discriminate].
    injection H as <- <-. apply str_eqb_neq in Eq.
    destruct (write_text_frame _ _ _ _ f _ Ew Hf) as (Hp & _ & _ & Ev & _).
    exists f, (mkFile (Text (apply_all ALL_REPLACEMENTS s)) (readable f) true), s.
    cbn [fs events say_all data]. rewrite Ev. cbn [events log].
    rewrite !opened_w_app. cbn [opened_w flat_map app].
    rewrite <- app_assoc. cbn [app].
    repeat split; trivial.
Qed.

Lemma process_file_final_content_witness :
  exists (f f' : file) (original : str),
    file_at ex_tree (ex_src ++ [lit "main.rs"]) = Some f /\
    data f = Text original /\
    file_at (fs (fst (process_file_try (ex_src ++ [lit "main.rs"]) ex_world)))
      (ex_src ++ [lit "main.rs"]) = Some f' /\
    data f' =
      Text (fold_left apply_rule
              (UI_REPLACEMENTS ++ DOMAIN_REPLACEMENTS ++ STORE_REPLACEMENTS)
              original) /\
    process_file (ex_src ++ [lit "main.rs"]) ex_world =
      (fst (process_file_try (ex_src ++ [lit "main.rs"]) ex_world), Ok true) /\
    (true = true <->
     fold_left apply_rule
       (UI_REPLACEMENTS ++ DOMAIN_REPLACEMENTS ++ STORE_REPLACEMENTS)
       original <> original) /\
    opened_w
      (events (fst (process_file_try (ex_src ++ [lit "main.rs"]) ex_world))) =
      opened_w (events ex_world) ++ [ex_src ++ [lit "main.rs"]].
Proof.
  apply (process_file_final_content (ex_src ++ [lit "main.rs"]) ex_world
           (fst (process_file_try (ex_src ++ [lit "main.rs"]) ex_world)) true).
  vm_compute. reflexivity.
Defined.

(** C2: the substitution is idempotent over the whole table: run on its
    own result it returns that result unchanged, and [changes_made] stays
    empty (no rule fires on the second pass). *)
Theorem substitute_idempotent (content : str) (w : world) :
  exists content' changes_made,
    substitute content w = (w, Ok (content', changes_made)) /\
    substitute content' w = (w, Ok (content', [])).
Proof.
  exists (apply_all ALL_REPLACEMENTS content), (fired ALL_REPLACEMENTS content).
  rewrite !substitute_run, !literal_substitute_eq. split; [reflexivity|].
  destruct (nothing_fires ALL_REPLACEMENTS (apply_all ALL_REPLACEMENTS content))
    as [-> ->]; [|reflexivity].
  intros [p r] Hin. now apply migrated_clean with (r := r).
Qed.

(** C3: when the pattern of a rule of the table occurs [n >= 1] times in
    the content, the substitution replaces each of the [n] occurrences by
    the rule's replacement (the content is [n + 1] pieces joined by the
    pattern, the result is the migrated pieces joined by the
    replacement, and the pattern is nowhere in it), and the rule is in
    [changes_made] exactly once. *)
Theorem all_occurrences_replaced (p r content : str) (n : nat) (w : world) :
  In (p, r) ALL_REPLACEMENTS -> 1 <= n -> occ_count p content = n ->
  exists content' changes_made pieces,
    substitute content w = (w, Ok (content', changes_made)) /\
    count_occ str_eq_dec changes_made (change_line p r) = 1 /\
    length pieces = S n /\
    content = join p pieces /\
    Forall (fun g => occ_count p g = 0) pieces /\
    content' = join r (map (apply_all ALL_REPLACEMENTS) pieces) /\
    occ_count p content' = 0.
Proof.
  intros Hin Hn Hc.
  destruct (table_split p r Hin) as (t1 & t2 & E & H1 & Hu & H2 & _).
  destruct (split_at_occurrences p Hu (length content) content (le_n _))
    as (pieces & Hj & Hl & Hf).
  exists (apply_all ALL_REPLACEMENTS content), (fired ALL_REPLACEMENTS content),
    pieces.
  rewrite substitute_run, literal_substitute_eq.
  split; [reflexivity|]. split; [|split; [|split; [|split; [|split]]]].
  - apply fired_once; [assumption|]. apply contains_iff.
    destruct (contains content p) eqn:C; [reflexivity|].
    apply not_contains_iff, occ_count_zero in C. lia.
  - now rewrite Hl, Hc.
  - exact Hj.
  - eapply Forall_impl; [|exact Hf]. intros g Hg. now apply occ_count_zero.
  - rewrite Hj at 1. rewrite E. apply apply_all_join; try assumption.
    destruct pieces; [discriminate | easy].
  - apply occ_count_zero. now apply migrated_clean with (r := r).
Qed.

Lemma all_occurrences_replaced_witness :
  exists content' changes_made pieces,
    substitute ex_main ex_world = (ex_world, Ok (content', changes_made)) /\
    count_occ str_eq_dec changes_made
      (change_line (lit "use crate::store::") (lit "use ruxlog_shared::store::"))
      = 1 /\
    length pieces = 3 /\
    ex_main = join (lit "use crate::store::") pieces /\
    Forall (fun g => occ_count (lit "use crate::store::") g = 0) pieces /\
    content' =
      join (lit "use ruxlog_shared::store::")
        (map (apply_all ALL_REPLACEMENTS) pieces) /\
    occ_count (lit "use crate::store::") content' = 0.
Proof.
  apply (all_occurrences_replaced (lit "use crate::store::")
           (lit "use ruxlog_shared::store::") ex_main 2 ex_world).
  - unfold ALL_REPLACEMENTS, STORE_REPLACEMENTS.
    apply in_or_app. right. apply in_or_app. right. left. reflexivity.
  - lia.
  - vm_compute. reflexivity.
Defined.

(** C5: a file whose content holds none of the patterns of the table is
    read and not written: the substitution returns the content with an
    empty [changes_made], [process_file] returns [False] without opening
    the file for writing or printing, and the file does not count as
    updated. *)
Theorem no_pattern_no_write (file_path : path) (w w1 : world) (content : str) :
  read_text file_path w = (w1, Ok content) ->
  (forall p r, In (p, r) ALL_REPLACEMENTS -> contains content p = false) ->
  substitute content w1 = (w1, Ok (content, [])) /\
  process_file file_path w = (w1, Ok false) /\
  fs w1 = fs w /\
  opened_w (events w1) = opened_w (events w) /\
  stdout w1 = stdout w /\
  process_all [file_path] w = (w1, Ok 0).
Proof.
  intros Hr Hno.
  destruct (nothing_fires ALL_REPLACEMENTS content) as [Ha Hf].
  { intros [p r] Hin. apply not_contains_iff. now apply (Hno p r). }
  assert (Hp : process_file file_path w = (w1, Ok false)).
  { rewrite process_file_run, Hr. cbv zeta. rewrite Ha.
    now rewrite (proj2 (str_eqb_eq content content) eq_refl). }
  split; [now rewrite substitute_run, literal_substitute_eq, Ha, Hf|].
  split; [exact Hp|].
  destruct (read_text_events _ _ _ _ Hr) as (Hfs & Hout & Hev).
  split; [exact Hfs|]. split; [|split; [exact Hout|]].
  - rewrite Hev, opened_w_app. cbn. now rewrite app_nil_r.
  - now rewrite process_all_cons, Hp.
Qed.

Lemma no_pattern_no_write_witness :
  substitute (lit "pub mod views;")
    (log (EvOpen (ex_src ++ [lit "lib.rs"]) R) ex_world) =
    (log (EvOpen (ex_src ++ [lit "lib.rs"]) R) ex_world,
     Ok (lit "pub mod views;", [])) /\
  process_file (ex_src ++ [lit "lib.rs"]) ex_world =
    (log (EvOpen (ex_src ++ [lit "lib.rs"]) R) ex_world, Ok false) /\
  fs (log (EvOpen (ex_src ++ [lit "lib.rs"]) R) ex_world) = fs ex_world /\
  opened_w (events (log (EvOpen (ex_src ++ [lit "lib.rs"]) R) ex_world)) =
    opened_w (events ex_world) /\
  stdout (log (EvOpen (ex_src ++ [lit "lib.rs"]) R) ex_world) =
    stdout ex_world /\
  process_all [ex_src ++ [lit "lib.rs"]] ex_world =
    (log (EvOpen (ex_src ++ [lit "lib.rs"]) R) ex_world, Ok 0).
Proof.
  apply (no_pattern_no_write (ex_src ++ [lit "lib.rs"]) ex_world
           (log (EvOpen (ex_src ++ [lit "lib.rs"]) R) ex_world)
           (lit "pub mod views;")).
  - vm_compute. reflexivity.
  - intros p r Hin.
    assert (T : forallb (fun rl => negb (contains (lit "pub mod views;") (fst rl)))
                  ALL_REPLACEMENTS = true) by (vm_compute; reflexivity).
    rewrite forallb_forall in T. apply negb_true_iff. apply (T (p, r) Hin).
Defined.

(** C6: the files found under an existing root are exactly the regular
    files whose name ends in [.rs] and does not start with a dot, in
    directories below the root none of which has a name that starts with
    a dot or is [target]; a file under a hidden or [target] directory is
    never found, whatever its name. *)
Theorem candidate_files_iff (root_dir : path) (w : world) (top : node)
  (file_path : path) :
  lookup (fs w) root_dir = Some top ->
  exists w' rust_files,
    find_rust_files root_dir w = (w', Ok rust_files) /\
    fs w' = fs w /\
    (In file_path rust_files <->
     exists dirs name,
       file_path = root_dir ++ dirs ++ [name] /\
       has_file top dirs name = true /\
       endswith name (lit ".rs") = true /\
       startswith name (lit ".") = false /\
       Forall (fun d => startswith d (lit ".") = false /\ d <> lit "target")
         dirs).
Proof.
  intros Hl. destruct (find_rust_files_run root_dir w) as [evs [E _]].
  rewrite Hl in E. eexists. eexists. split; [exact E|].
  split; [reflexivity|]. rewrite rust_files_of_iff.
  split; intros (dirs & name & Hp & Hf & H).
  - exists dirs, name. destruct H as [Hr Hk]. unfold is_rust_file in Hr.
    apply andb_true_iff in Hr as [Hr1 Hr2]. apply negb_true_iff in Hr2.
    repeat split; trivial. apply Forall_forall. intros d Hd.
    rewrite forallb_forall in Hk. specialize (Hk d Hd).
    unfold keep_dir in Hk. apply andb_true_iff in Hk as [Hk1 Hk2].
    apply negb_true_iff in Hk1, Hk2. split; [exact Hk1|].
    now apply str_eqb_neq.
  - exists dirs, name. destruct H as (Hr1 & Hr2 & Hk).
    repeat split; trivial.
    + unfold is_rust_file. now rewrite Hr1, Hr2.
    + apply forallb_forall. intros d Hd. rewrite Forall_forall in Hk.
      destruct (Hk d Hd) as [Hk1 Hk2]. unfold keep_dir.
      apply str_eqb_neq in Hk2. now rewrite Hk1, Hk2.
Qed.

Lemma candidate_files_iff_witness :
  exists w' rust_files,
    find_rust_files ex_src ex_world = (w', Ok rust_files) /\
    fs w' = fs ex_world /\
    (In (ex_src ++ [lit "target"; lit "gen.rs"]) rust_files <->
     exists dirs name,
       ex_src ++ [lit "target"; lit "gen.rs"] = ex_src ++ dirs ++ [name] /\
       has_file
         (Dir [ (lit "main.rs", ex_plain ex_main);
                (lit "lib.rs", ex_plain (lit "pub mod views;"));
                (lit "raw.rs", File (mkFile Undecodable true true));
                (lit "notes.txt", ex_plain (lit "use crate::store::x"));
                (lit "target", Dir [ (lit "gen.rs", ex_plain ex_main) ]);
                (lit "views",
                 Dir [ (lit "home.rs",
                        ex_plain (lit "use crate::ui::components::form;")) ])
              ]) dirs name = true /\
       endswith name (lit ".rs") = true /\
       startswith name (lit ".") = false /\
       Forall (fun d => startswith d (lit ".") = false /\ d <> lit "target")
         dirs).
Proof.
  apply (candidate_files_iff ex_src ex_world _
           (ex_src ++ [lit "target"; lit "gen.rs"])).
  reflexivity.
Defined.



(** C8: the substitution is a function of the content and the rules
    alone.  A loop of [process_file] over any table, run in two worlds on
    the same variables, returns (or raises) the same in both and hands
    each world back as it was: no file, no event and no output is
    touched.  So does the whole substitution, which returns the new
    content and [changes_made]. *)
Theorem substitution_pure :
  (forall (table : list rule) (vars : str * list str) (w1 w2 : world),
     exists res,
       apply_replacements table vars w1 = (w1, res) /\
       apply_replacements table vars w2 = (w2, res)) /\
  (forall (content : str) (w1 w2 : world),
     exists content' changes_made,
       substitute content w1 = (w1, Ok (content', changes_made)) /\
       substitute content w2 = (w2, Ok (content', changes_made))).
Proof.
  split.
  - intros table. unfold apply_replacements.
    induction table as [|[p r] table IH]; intros [s changes] w1 w2.
    + exists (Ok (s, changes)). now split.
    + rewrite !for_each_cons, !replace_round_run.
      destruct (Re.search p s) as [m|e]; [|now exists (Raise e)].
      destruct (truthy m); [|apply IH].
      destruct (Re.sub p r s) as [s'|e]; [apply IH | now exists (Raise e)].
  - intros content w1 w2.
    exists (apply_all ALL_REPLACEMENTS content),
      (fired ALL_REPLACEMENTS content).
    now rewrite !substitute_run, literal_substitute_eq.
Qed.

(** C9: a call of [process_file] opens at most one file for writing, its
    own, and only when the substitution changed the content.  The write
    replaces the whole content of that file by the new content; every
    path is there before if and only if it is there after, with the same
    kind, and every other file is as it was. *)
Theorem write_frame (file_path : path) (w : world) :
  exists w' updated,
    process_file file_path w = (w', Ok updated) /\
    (opened_w (events w') = opened_w (events w) \/
     opened_w (events w') = opened_w (events w) ++ [file_path]) /\
    (opened_w (events w') <> opened_w (events w) ->
     exists f original,
       file_at (fs w) file_path = Some f /\ data f = Text original /\
       apply_all ALL_REPLACEMENTS original <> original) /\
    (fs w' = fs w \/
     exists f original,
       file_at (fs w) file_path = Some f /\ data f = Text original /\
       apply_all ALL_REPLACEMENTS original <> original /\
       file_at (fs w') file_path =
         Some (mkFile (Text (apply_all ALL_REPLACEMENTS original))
                 (readable f) true)) /\
    (forall q, kind_at (fs w') q = kind_at (fs w) q) /\
    (forall q, q <> file_path -> file_at (fs w') q = file_at (fs w) q).
Proof.
  rewrite process_file_run.
  destruct (read_text file_path w) as [w1 [s|e]] eqn:Er.
  - destruct (read_text_ok _ _ _ _ Er) as [-> (f & Hf & Hd & _)].
    cbv zeta. destruct (str_eqb (apply_all ALL_REPLACEMENTS s) s) eqn:Eq.
    + eexists. eexists. split; [reflexivity|]. cbn [events fs log].
      rewrite opened_w_app. cbn [opened_w flat_map app]. rewrite app_nil_r.
      repeat split; auto. intros H. now contradict H.
    + apply str_eqb_neq in Eq.
      destruct (write_text file_path _ _) as [w2 [[]|e]] eqn:Ew.
      * destruct (write_text_frame _ _ _ _ f _ Ew Hf)
          as (Hp & Hk & Hq & Ev & _).
        eexists. eexists. split; [reflexivity|].
        cbn [events fs say say_all]. rewrite Ev. cbn [events fs log] in *.
        rewrite !opened_w_app. cbn [opened_w flat_map app].
        rewrite !app_nil_r.
        split; [now right|]. split; [intros _; now exists f, s|].
        split; [right; now exists f, s|]. now split.
      * destruct (write_text_events _ _ _ _ _ Ew) as (_ & Ev & Hw).
        eexists. eexists. split; [reflexivity|].
        cbn [events fs say say_all]. rewrite Ev, (Hw e eq_refl).
        cbn [events fs log]. rewrite !opened_w_app.
        cbn [opened_w flat_map app]. rewrite !app_nil_r.
        split; [now right|]. split; [intros _; now exists f, s|].
        split; [now left|]. now split.
  - destruct (read_text_events _ _ _ _ Er) as (Hfs & _ & Ev).
    eexists. eexists. split; [reflexivity|].
    cbn [events fs say say_all]. rewrite Ev, Hfs, opened_w_app.
    cbn [opened_w flat_map app]. rewrite app_nil_r.
    repeat split; auto. intros H. now contradict H.
Qed.

(** C10: no pattern of the table holds a special character of [re] and
    no replacement holds a backslash, so on every content [re.search]
    finds a match exactly when the pattern is a substring and [re.sub]
    returns what the literal replace-all returns, for each rule; and the
    loops of [process_file] compute what the same loops compute with
    substring test and literal replace-all. *)
Theorem regex_is_literal :
  Forall
    (fun rl : rule =>
       forallb (fun c => negb (is_meta c)) (fst rl) = true /\
       forallb (fun c => negb (N.eqb c (ch "\"))) (snd rl) = true /\
       forall content : str,
         (exists m, Re.search (fst rl) content = Ok m /\
                    truthy m = contains content (fst rl)) /\
         Re.sub (fst rl) (snd rl) content =
           Ok (replace_all (fst rl) (snd rl) content))
    ALL_REPLACEMENTS /\
  forall (content : str) (w : world),
    substitute content w = (w, Ok (literal_substitute content)).
Proof.
  split; [|exact substitute_run].
  apply Forall_forall. intros rl Hin.
  destruct (in_table_plain rl Hin) as [Hp Hr].
  split; [|split; [exact Hr|]].
  - unfold plain_pattern in Hp. now apply andb_true_iff in Hp.
  - intros content. split.
    + now apply re_search_plain.
    + now apply re_sub_plain.
Qed.

(* ================================================================= *)
(** * Further properties of the script *)

(** ** Which rules fire *)

(** When its turn comes, a rule finds its pattern exactly when the
    pattern was in the content from the start: the rules before it
    neither remove nor bring in any occurrence of it. *)
Lemma contains_at_turn (t1 t2 : list rule) (p r s : str) :
  ALL_REPLACEMENTS = t1 ++ (p, r) :: t2 ->
  contains (apply_all t1 s) p = contains s p.
Proof.
  intros E.
  assert (Hin : In (p, r) ALL_REPLACEMENTS).
  { rewrite E. apply in_or_app. right. now left. }
  assert (I1 : forall rl, In rl t1 -> In rl ALL_REPLACEMENTS).
  { intros rl H. rewrite E. apply in_or_app. now left. }
  pose proof table_patterns_nodup as Nd. rewrite E, map_app in Nd.
  cbn [map fst] in Nd. apply NoDup_remove_2 in Nd.
  destruct (contains s p) eqn:C.
  - apply contains_iff in C as [a [b ->]]. apply contains_iff.
    rewrite apply_all_around; [apply occurs_self|].
    intros rl H. apply (in_table_apart_pattern rl (p, r)); auto.
    cbn [fst]. intros Eq. apply Nd. apply in_or_app. left.
    rewrite <- Eq. now apply in_map.
  - apply not_contains_iff. apply not_contains_iff in C.
    apply apply_all_keeps_absent; [|assumption].
    intros rl H. split.
    + apply (in_table_apart (p, r) rl); auto.
    + pose proof table_patterns_nonempty as T. rewrite Forall_forall in T.
      apply T; auto.
Qed.

Lemma fired_suffix (t2 : list rule) :
  forall (t1 : list rule) (s : str),
    ALL_REPLACEMENTS = t1 ++ t2 ->
    fired t2 (apply_all t1 s) =
    map (fun rl => change_line (fst rl) (snd rl))
      (filter (fun rl => contains s (fst rl)) t2).
Proof.
  induction t2 as [|[p r] t2 IH]; intros t1 s E; [reflexivity|].
  rewrite fired_cons, (contains_at_turn t1 t2 p r s E).
  assert (A : replace_all p r (apply_all t1 s) = apply_all (t1 ++ [(p, r)]) s)
    by (now rewrite apply_all_app).
  rewrite A, (IH (t1 ++ [(p, r)]) s) by (now rewrite <- app_assoc).
  cbn [filter fst]. now destruct (contains s p).
Qed.

Lemma fired_present (s : str) :
  fired ALL_REPLACEMENTS s =
  map (fun rl => change_line (fst rl) (snd rl)) (present_rules s).
Proof. exact (fired_suffix ALL_REPLACEMENTS [] s eq_refl). Qed.

Lemma has_pattern_iff (s : str) :
  has_pattern s = true <->
  exists p r, In (p, r) ALL_REPLACEMENTS /\ contains s p = true.
Proof.
  unfold has_pattern. rewrite existsb_exists. split.
  - intros [[p r] [Hin H]]. now exists p, r.
  - intros (p & r & Hin & H). now exists (p, r).
Qed.

(** The migration changes a content exactly when the content holds a
    pattern of the table. *)
Lemma changed_iff_pattern (s : str) :
  str_eqb (apply_all ALL_REPLACEMENTS s) s = negb (has_pattern s).
Proof.
  destruct (has_pattern s) eqn:Hp; cbn [negb].
  - apply str_eqb_neq. intros E.
    apply has_pattern_iff in Hp as (p & r & Hin & C).
    apply contains_iff in C. rewrite <- E in C.
    now apply (migrated_clean p r s Hin).
  - apply str_eqb_eq. apply nothing_fires. intros [p r] Hin.
    apply not_contains_iff. cbn [fst].
    destruct (contains s p) eqn:C; [|reflexivity].
    assert (X : has_pattern s = true)
      by (apply has_pattern_iff; now exists p, r).
    congruence.
Qed.

(** X2: [changes_made] is made of the lines of exactly those rules whose
    pattern is in the content as read, one line each, in the order of the
    table; and the content comes out changed exactly when that list is
    not empty. *)
Theorem changes_made_are_rules_present (content : str) (w : world) :
  exists content',
    substitute content w =
      (w,
       Ok (content',
           map (fun rl => change_line (fst rl) (snd rl))
             (filter (fun rl => contains content (fst rl))
                ALL_REPLACEMENTS))) /\
    (content' <> content <->
     filter (fun rl => contains content (fst rl)) ALL_REPLACEMENTS <> []).
Proof.
  exists (apply_all ALL_REPLACEMENTS content).
  rewrite substitute_run, literal_substitute_eq, fired_present.
  split; [reflexivity|].
  rewrite <- str_eqb_neq, changed_iff_pattern.
  fold (present_rules content). unfold has_pattern, present_rules.
  induction ALL_REPLACEMENTS as [|rl t IH]; cbn [existsb filter negb].
  - split; [discriminate | congruence].
  - destruct (contains content (fst rl)); cbn [orb negb].
    + split; [discriminate | reflexivity].
    + exact IH.
Qed.

(** ** When a file is updated *)

Lemma write_text_existing (p : path) (s : str) (w : world) (f : file) :
  file_at (fs w) p = Some f ->
  exists w2,
    write_text p s w =
      (w2, if writable f then Ok tt else Raise PermissionError).
Proof.
  unfold file_at. intros H.
  destruct (lookup (fs w) p) as [[f0|es]|] eqn:L; try discriminate.
  injection H as ->.
  destruct (store_over_file (fs w) p f
              (File (mkFile (Text s) (readable f) true)) L) as [fs' S].
  unfold write_text. cbn [fs log events stdout]. rewrite L.
  destruct (writable f); [|now eexists]. rewrite S. now eexists.
Qed.

Lemma process_file_updatable (p : path) (w w' : world) (b : bool) :
  process_file p w = (w', Ok b) -> b = updatable (fs w) p.
Proof.
  rewrite process_file_run. unfold updatable.
  destruct (read_text p w) as [w1 [s|e]] eqn:Er.
  - destruct (read_text_ok _ _ _ _ Er) as [-> (f & Hf & Hd & Hr)].
    rewrite Hf, Hd, Hr. cbv zeta. rewrite changed_iff_pattern.
    destruct (has_pattern s); cbn [negb andb].
    + destruct (write_text_existing p (apply_all ALL_REPLACEMENTS s)
                  (log (EvOpen p R) w) f Hf) as [w2 ->].
      destruct (writable f); intros H; now injection H as _ <-.
    + intros H; injection H as _ <-. now rewrite andb_false_r.
  - intros H; injection H as _ <-. revert Er. unfold read_text, file_at.
    cbn [fs log].
    destruct (lookup (fs w) p) as [[f|es]|]; try reflexivity.
    destruct (readable f); [|reflexivity].
    destruct (data f); [discriminate|]. now rewrite andb_false_r.
Qed.

(** ** Lines, and rules that feed each other *)

(** No pattern of the table holds a line break. *)
Lemma table_apart_newline :
  forallb (fun rl => apart (fst rl) newline) ALL_REPLACEMENTS = true.
Proof. by_computation. Qed.

Lemma apply_all_lines (lines : list str) :
  lines <> [] ->
  apply_all ALL_REPLACEMENTS (join newline lines) =
  join newline (map (apply_all ALL_REPLACEMENTS) lines).
Proof.
  induction lines as [|l lines IH]; [easy | intros _].
  destruct lines as [|l' lines]; [reflexivity|].
  rewrite (join_cons newline l) by easy. cbn [map].
  rewrite (join_cons newline (apply_all ALL_REPLACEMENTS l)) by easy.
  rewrite apply_all_around.
  - now rewrite IH.
  - intros rl Hin. pose proof table_apart_newline as T.
    rewrite forallb_forall in T. now apply T.
Qed.

(** X3: the migration works line by line: migrating lines joined by line
    breaks gives the migrated lines joined by line breaks, so no rule
    ever matches across a line break or changes one. *)
Theorem migrate_line_by_line (lines : list str) (w : world) :
  lines <> [] ->
  exists results changes_made,
    Forall2
      (fun l result => exists changes, substitute l w = (w, Ok (result, changes)))
      lines results /\
    substitute (join newline lines) w =
      (w, Ok (join newline results, changes_made)).
Proof.
  intros Hne.
  exists (map (apply_all ALL_REPLACEMENTS) lines),
    (fired ALL_REPLACEMENTS (join newline lines)).
  split.
  - clear Hne. induction lines as [|l lines IH]; constructor; [|exact IH].
    exists (fired ALL_REPLACEMENTS l).
    now rewrite substitute_run, literal_substitute_eq.
  - rewrite substitute_run, literal_substitute_eq.
    now rewrite apply_all_lines.
Qed.

Lemma migrate_line_by_line_witness :
  exists results changes_made,
    Forall2
      (fun l result =>
         exists changes, substitute l ex_world = (ex_world, Ok (result, changes)))
      [lit "use crate::store::auth;"; lit "fn f() {}"] results /\
    substitute (join newline [lit "use crate::store::auth;"; lit "fn f() {}"])
      ex_world =
      (ex_world, Ok (join newline results, changes_made)).
Proof.
  apply (migrate_line_by_line
           [lit "use crate::store::auth;"; lit "fn f() {}"] ex_world).
  discriminate.
Defined.

Lemma occurs_trans (a b c : str) : occurs a b -> occurs b c -> occurs a c.
Proof.
  intros [x [y ->]] [u [v ->]]. exists (u ++ x), (y ++ v).
  now rewrite <- !app_assoc.
Qed.

Lemma replace_all_shows (p r s : str) :
  p <> [] -> occurs p s -> occurs r (replace_all p r s).
Proof.
  intros Hp H. apply contains_iff in H. rewrite <- find_truthy in H.
  destruct (find p s) as [[pre rest]|] eqn:F; [|discriminate].
  destruct (find_some p r s pre rest Hp F) as [_ ->]. apply occurs_self.
Qed.

(** X4: the rules are applied one after the other, each to the output of
    the one before: when the first rule's replacement holds the second
    rule's pattern, the second rule fires on what the first one wrote,
    and both are recorded, even if the original content held nothing for
    the second rule. *)
Theorem later_rule_sees_earlier (p1 r1 p2 r2 content : str) (w : world) :
  plain_pattern p1 = true -> plain_template r1 = true ->
  plain_pattern p2 = true -> plain_template r2 = true ->
  contains content p1 = true -> contains r1 p2 = true ->
  apply_replacements [(p1, r1); (p2, r2)] (content, []) w =
    (w,
     Ok (replace_all p2 r2 (replace_all p1 r1 content),
         [change_line p1 r1; change_line p2 r2])).
Proof.
  intros P1 T1 P2 T2 C1 C2.
  rewrite apply_replacements_run.
  2:{ intros rl [<-|[<-|[]]]; now split. }
  cbn [fold_left literal_step]. rewrite C1.
  assert (C : contains (replace_all p1 r1 content) p2 = true).
  { apply contains_iff. apply occurs_trans with (b := r1).
    - now apply contains_iff.
    - apply replace_all_shows; [|now apply contains_iff].
      unfold plain_pattern in P1. apply andb_true_iff in P1 as [P1 _].
      apply negb_true_iff in P1. now apply str_eqb_neq. }
  now rewrite C.
Qed.

Lemma later_rule_sees_earlier_witness :
  apply_replacements [(lit "old::path::", lit "mid::path::");
                      (lit "mid::", lit "new::")]
    (lit "use old::path::module;", []) ex_world =
    (ex_world,
     Ok (replace_all (lit "mid::") (lit "new::")
           (replace_all (lit "old::path::") (lit "mid::path::")
              (lit "use old::path::module;")),
         [change_line (lit "old::path::") (lit "mid::path::");
          change_line (lit "mid::") (lit "new::")])).
Proof.
  apply (later_rule_sees_earlier (lit "old::path::") (lit "mid::path::")
           (lit "mid::") (lit "new::") (lit "use old::path::module;") ex_world);
    vm_compute; reflexivity.
Defined.

(** ** One call of [process_file], seen from outside *)

Lemma filter_plain_lines (l : list str) :
  filter is_updated (map Plain l) = [] /\
  filter is_blank (map Plain l) = [] /\
  filter is_error (map Plain l) = [].
Proof.
  induction l as [|x l (I1 & I2 & I3)]; [now repeat split|].
  cbn. now repeat split.
Qed.

(** What a call leaves in the world, by its return value. *)
Lemma process_file_effect (p : path) (w w' : world) (b : bool) :
  process_file p w = (w', Ok b) ->
  (exists out,
     stdout w' = stdout w ++ out /\
     length (filter is_updated out) = (if b then 1 else 0) /\
     length (filter is_blank out) = 0 /\
     length (filter is_error out) <= (if b then 0 else 1)) /\
  (exists ws,
     opened_w (events w') = opened_w (events w) ++ ws /\ incl ws [p]) /\
  (forall q, kind_at (fs w') q = kind_at (fs w) q) /\
  (forall q, q <> p -> file_at (fs w') q = file_at (fs w) q) /\
  (if b
   then exists f s,
       file_at (fs w) p = Some f /\ data f = Text s /\
       file_at (fs w') p =
         Some (mkFile (Text (apply_all ALL_REPLACEMENTS s)) (readable f) true)
       /\ readable f = true
   else fs w' = fs w).
Proof.
  rewrite process_file_run.
  destruct (read_text p w) as [w1 [s|e]] eqn:Er.
  - destruct (read_text_ok _ _ _ _ Er) as [-> (f & Hf & Hd & Hr)].
    cbv zeta. set (changes := fired ALL_REPLACEMENTS s).
    set (s' := apply_all ALL_REPLACEMENTS s).
    destruct (str_eqb s' s) eqn:Eq.
    + intros H; injection H as <- <-. cbn [fs events stdout log].
      rewrite opened_w_app. cbn [opened_w flat_map app].
      split; [exists []; rewrite app_nil_r; cbn; repeat split; lia|].
      split; [exists []; split; [reflexivity | easy]|]. now repeat split.
    + destruct (write_text p _ _) as [w2 [[]|e]] eqn:Ew.
      * destruct (write_text_frame _ _ _ _ f _ Ew Hf)
          as (Hp & Hk & Hq & Ev & Ho).
        intros H; injection H as <- <-. cbn [fs events stdout say_all].
        rewrite Ev, Ho. cbn [fs events stdout log] in *.
        rewrite !opened_w_app. cbn [opened_w flat_map app].
        rewrite !app_nil_r. split.
        { exists (Updated p :: map Plain changes).
          split; [reflexivity|].
          destruct (filter_plain_lines changes) as (F1 & F2 & F3).
          change (Updated p :: map Plain changes)
            with ([Updated p] ++ map Plain changes).
          rewrite !filter_app, F1, F2, F3. cbn. now repeat split. }
        split; [exists [p]; split; [reflexivity | apply incl_refl]|].
        split; [exact Hk|]. split; [exact Hq|]. now exists f, s.
      * destruct (write_text_events _ _ _ _ _ Ew) as (Ho & Ev & Hw).
        intros H; injection H as <- <-. cbn [fs events stdout say say_all].
        rewrite Ev, Ho, (Hw e eq_refl). cbn [fs events stdout log].
        rewrite !opened_w_app. cbn [opened_w flat_map app].
        rewrite !app_nil_r.
        split; [eexists; split; [reflexivity | cbn; repeat split; lia]|].
        split; [exists [p]; split; [reflexivity | apply incl_refl]|].
        now repeat split.
  - destruct (read_text_events _ _ _ _ Er) as (Hfs & Ho & Ev).
    intros H; injection H as <- <-. cbn [fs events stdout say say_all].
    rewrite Ev, Ho, Hfs, opened_w_app. cbn [opened_w flat_map app].
    split; [eexists; split; [reflexivity | cbn; repeat split; lia]|].
    split; [exists []; split; [reflexivity | easy]|]. now repeat split.
Qed.

(** The migrated content holds no pattern. *)
Lemma migrated_has_no_pattern (s : str) :
  has_pattern (apply_all ALL_REPLACEMENTS s) = false.
Proof.
  destruct (has_pattern _) eqn:H; [|reflexivity].
  apply has_pattern_iff in H as (p & r & Hin & C).
  apply contains_iff in C. now destruct (migrated_clean p r s Hin).
Qed.

(** After a call, its file is not to be updated any more. *)
Lemma process_file_settles (p : path) (w w' : world) (b : bool) :
  process_file p w = (w', Ok b) -> updatable (fs w') p = false.
Proof.
  intros H. pose proof (process_file_updatable _ _ _ _ H) as U.
  destruct (process_file_effect _ _ _ _ H) as (_ & _ & _ & _ & E).
  destruct b.
  - destruct E as (f & s & _ & _ & E & _). unfold updatable. rewrite E.
    cbn [data readable writable]. rewrite migrated_has_no_pattern.
    now rewrite andb_false_r.
  - now rewrite E.
Qed.

Lemma process_file_keeps (p q : path) (w w' : world) (b : bool) :
  process_file p w = (w', Ok b) -> q <> p ->
  updatable (fs w') q = updatable (fs w) q.
Proof.
  intros H Ne.
  destruct (process_file_effect _ _ _ _ H) as (_ & _ & _ & F & _).
  unfold updatable. now rewrite (F q Ne).
Qed.

(** ** The loop, seen from outside *)

Lemma process_all_settles (files : list path) :
  forall (w w' : world) (n : nat),
    process_all files w = (w', Ok n) ->
    (forall p, In p files -> updatable (fs w') p = false) /\
    (forall q, updatable (fs w) q = false -> updatable (fs w') q = false).
Proof.
  induction files as [|f files IH]; intros w w' n.
  - cbn. intros H; injection H as <- _. now split.
  - rewrite process_all_cons.
    destruct (process_file_returns f w) as [w1 [b E]]. rewrite E.
    assert (K : forall q, updatable (fs w) q = false ->
                          updatable (fs w1) q = false).
    { intros q Hq. destruct (list_eq_dec str_eq_dec q f) as [->|Ne].
      - now apply (process_file_settles _ _ _ _ E).
      - now rewrite (process_file_keeps _ _ _ _ _ E Ne). }
    pose proof (process_file_settles _ _ _ _ E) as S.
    assert (R : forall w2 m,
              process_all files w2 = (w', Ok m) -> fs w2 = fs w1 ->
              (forall p, In p (f :: files) -> updatable (fs w') p = false) /\
              (forall q, updatable (fs w) q = false ->
                         updatable (fs w') q = false)).
    { intros w2 m H Hfs. destruct (IH _ _ _ H) as [I1 I2].
      rewrite Hfs in I2. split.
      - intros p [<-|Hp]; [now apply I2 | now apply I1].
      - intros q Hq. now apply I2, K. }
    destruct b.
    + destruct (process_all files (say Blank w1)) as [w2 [m|e]] eqn:E2;
        [|discriminate].
      intros H; injection H as <- _. now apply (R _ _ E2).
    + intros H. now apply (R _ _ H).
Qed.

Lemma process_all_nothing (files : list path) :
  forall w : world,
    (forall p, In p files -> updatable (fs w) p = false) ->
    exists w', process_all files w = (w', Ok 0) /\ fs w' = fs w.
Proof.
  induction files as [|f files IH]; intros w H.
  - now exists w.
  - rewrite process_all_cons.
    destruct (process_file_returns f w) as [w1 [b E]]. rewrite E.
    pose proof (process_file_updatable _ _ _ _ E) as U.
    rewrite (H f (or_introl eq_refl)) in U. subst b.
    destruct (process_file_effect _ _ _ _ E) as (_ & _ & _ & _ & Hfs).
    destruct (IH w1) as [w' [-> Hw]].
    + intros p Hp. rewrite Hfs. apply H. now right.
    + exists w'. split; [reflexivity | congruence].
Qed.

(** X6: the loop can be run again safely: after one pass over a batch, a
    second pass over the same batch updates no file and leaves every
    file as the first pass left it. *)
Theorem process_all_rerun (files : list path) (w w1 : world) (n : nat) :
  process_all files w = (w1, Ok n) ->
  exists w2, process_all files w1 = (w2, Ok 0) /\ fs w2 = fs w1.
Proof.
  intros H. apply process_all_nothing.
  now apply (process_all_settles files w w1 n H).
Qed.

Lemma process_all_rerun_witness :
  exists w2,
    process_all [ex_src ++ [lit "main.rs"]; ex_src ++ [lit "raw.rs"]]
      (fst (process_all [ex_src ++ [lit "main.rs"]; ex_src ++ [lit "raw.rs"]]
              ex_world)) = (w2, Ok 0) /\
    fs w2 =
    fs (fst (process_all [ex_src ++ [lit "main.rs"]; ex_src ++ [lit "raw.rs"]]
               ex_world)).
Proof.
  apply (process_all_rerun
           [ex_src ++ [lit "main.rs"]; ex_src ++ [lit "raw.rs"]] ex_world
           (fst (process_all
                   [ex_src ++ [lit "main.rs"]; ex_src ++ [lit "raw.rs"]]
                   ex_world)) 1).
  vm_compute. reflexivity.
Defined.

(** ** The directories the walk lists *)

Lemma map_of_flat_map {A B C : Type} (f : B -> C) (g : A -> list B)
  (l : list A) :
  map f (flat_map g l) = flat_map (fun x => map f (g x)) l.
Proof.
  induction l as [|x l IH]; [reflexivity|].
  now rewrite !flat_map_step, map_app, IH.
Qed.

Lemma os_walk_roots (keep : str -> bool) (n : node) :
  forall (top d : path),
    In d (map (fun t => fst (fst t)) (os_walk keep top n)) <->
    exists ds, d = top ++ ds /\ has_dir n ds = true /\ forallb keep ds = true.
Proof.
  induction n as [f|es IH] using node_induction; intros top d.
  - split; [intros [] | intros (ds & _ & H & _); discriminate].
  - rewrite os_walk_dir. cbn [map fst]. rewrite map_of_flat_map.
    cbn [In]. rewrite in_flat_map. split.
    + intros [<- | [[k c] [Hin H]]].
      * exists []. now rewrite app_nil_r.
      * cbn [fst snd] in H.
        destruct (is_dir c && keep k) eqn:E; [|destruct H].
        apply andb_true_iff in E as [Ed Ek]. rewrite Forall_forall in IH.
        apply (IH (k, c) Hin) in H as (ds & -> & Hd & Hk).
        cbn [snd] in Hd. exists (k :: ds).
        split; [now rewrite <- app_assoc|]. split.
        -- cbn [has_dir]. apply existsb_exists. exists (k, c).
           split; [assumption|]. cbn [fst snd].
           now rewrite (proj2 (str_eqb_eq k k) eq_refl), Ed, Hd.
        -- cbn [forallb]. now rewrite Ek, Hk.
    + intros (ds & -> & Hd & Hk). destruct ds as [|k ds].
      * left. now rewrite app_nil_r.
      * right. cbn [has_dir] in Hd.
        apply existsb_exists in Hd as [[k' c] [Hin H]]. cbn [fst snd] in H.
        apply andb_true_iff in H as [H Hc].
        apply andb_true_iff in H as [Hn Hdir]. apply str_eqb_eq in Hn.
        subst k'. cbn [forallb] in Hk. apply andb_true_iff in Hk as [Hk Hks].
        exists (k, c). split; [assumption|]. cbn [fst snd].
        rewrite Hdir, Hk. cbn [andb]. rewrite Forall_forall in IH.
        apply (IH (k, c) Hin). exists ds.
        split; [now rewrite <- app_assoc|]. now split.
Qed.

(** X7: the walk prunes: the directories that [find_rust_files] lists
    are exactly the root and the directories reached from it through
    directories that are neither hidden nor called [target]; nothing
    below a hidden or [target] directory is ever listed, and no file is
    opened. *)
Theorem walk_lists_only_kept (root_dir : path) (w : world) (top : node) :
  lookup (fs w) root_dir = Some top ->
  exists w' rust_files listed,
    find_rust_files root_dir w = (w', Ok rust_files) /\
    events w' = events w ++ map EvScandir listed /\
    forall d,
      In d listed <->
      exists dirs,
        d = root_dir ++ dirs /\ has_dir top dirs = true /\
        Forall (fun x => startswith x (lit ".") = false /\ x <> lit "target")
          dirs.
Proof.
  intros Hl. unfold find_rust_files. rewrite Hl.
  eexists. eexists.
  exists (map (fun t => fst (fst t)) (os_walk keep_dir root_dir top)).
  split; [reflexivity|]. cbn [events]. split; [now rewrite map_map|].
  intros d. rewrite os_walk_roots.
  split; intros (ds & -> & Hd & Hk); exists ds; repeat split; trivial.
  - apply Forall_forall. intros x Hx. rewrite forallb_forall in Hk.
    specialize (Hk x Hx). unfold keep_dir in Hk.
    apply andb_true_iff in Hk as [K1 K2]. apply negb_true_iff in K1, K2.
    split; [exact K1 | now apply str_eqb_neq].
  - apply forallb_forall. intros x Hx. rewrite Forall_forall in Hk.
    destruct (Hk x Hx) as [K1 K2]. unfold keep_dir.
    apply str_eqb_neq in K2. now rewrite K1, K2.
Qed.

Lemma walk_lists_only_kept_witness :
  exists w' rust_files listed,
    find_rust_files ex_src ex_world = (w', Ok rust_files) /\
    events w' = events ex_world ++ map EvScandir listed /\
    forall d,
      In d listed <->
      exists dirs,
        d = ex_src ++ dirs /\
        has_dir
          (Dir [ (lit "main.rs", ex_plain ex_main);
                 (lit "lib.rs", ex_plain (lit "pub mod views;"));
                 (lit "raw.rs", File (mkFile Undecodable true true));
                 (lit "notes.txt", ex_plain (lit "use crate::store::x"));
                 (lit "target", Dir [ (lit "gen.rs", ex_plain ex_main) ]);
                 (lit "views",
                  Dir [ (lit "home.rs",
                         ex_plain (lit "use crate::ui::components::form;")) ])
               ]) dirs = true /\
        Forall (fun x => startswith x (lit ".") = false /\ x <> lit "target")
          dirs.
Proof.
  apply (walk_lists_only_kept ex_src ex_world). reflexivity.
Defined.

(** ** The walk after a file was written *)

Lemma os_walk_kind (c c' : node) :
  (forall keep top, os_walk keep top c' = os_walk keep top c) ->
  is_dir c' = is_dir c.
Proof.
  intros H. specialize (H (fun _ => true) []).
  destruct c, c'; try reflexivity; rewrite !os_walk_dir in H; discriminate.
Qed.

Lemma assoc_set_walk (d : str) (c c' : node) (es : list (str * node)) :
  assoc d es = Some c ->
  (forall keep top, os_walk keep top c' = os_walk keep top c) ->
  forall keep top,
    os_walk keep top (Dir (assoc_set d c' es)) = os_walk keep top (Dir es).
Proof.
  intros Ha Hw keep top. pose proof (os_walk_kind c c' Hw) as Hk.
  rewrite !os_walk_dir. unfold dir_names, file_names.
  induction es as [|[k x] es IH]; [discriminate|].
  cbn [assoc assoc_set] in *. destruct (str_eqb k d) eqn:E.
  - injection Ha as ->. cbn [filter flat_map map fst snd].
    rewrite Hk, Hw. now destruct (is_dir c).
  - specialize (IH Ha). injection IH as I1 I2 I3.
    cbn [filter flat_map map fst snd]. rewrite I3.
    destruct (is_dir x); cbn [negb map fst filter]; now rewrite ?I1, ?I2.
Qed.

(** Writing over a file changes what no walk sees. *)
Lemma store_over_file_walk (p : path) (f f' : file) :
  forall (n n' : node),
    lookup n p = Some (File f) -> store n p (File f') = Some n' ->
    forall q keep top,
      option_map (os_walk keep top) (lookup n' q) =
      option_map (os_walk keep top) (lookup n q).
Proof.
  induction p as [|d p IH]; intros n n' H S q keep top.
  - cbn in H, S. injection H as ->. injection S as <-.
    now destruct q.
  - destruct n as [|es]; [discriminate|]. cbn [lookup] in H.
    destruct (assoc d es) as [c|] eqn:E; [|discriminate].
    rewrite (store_cons es d p c _ E) in S.
    destruct (store c p (File f')) as [c'|] eqn:Sc; [|discriminate].
    injection S as <-. pose proof (IH c c' H Sc) as I.
    destruct q as [|k q].
    + cbn [lookup option_map]. f_equal. apply (assoc_set_walk d c c' es E).
      intros keep' top'. specialize (I [] keep' top'). cbn in I.
      now injection I.
    + cbn [lookup]. destruct (str_eq_dec k d) as [->|Ne].
      * rewrite assoc_set_same, E. apply I.
      * now rewrite assoc_set_other.
Qed.

Lemma process_file_same_walk (p : path) (w w' : world) (r : result bool) :
  process_file p w = (w', r) ->
  forall q keep top,
    option_map (os_walk keep top) (lookup (fs w') q) =
    option_map (os_walk keep top) (lookup (fs w) q).
Proof.
  rewrite process_file_run.
  destruct (read_text p w) as [w1 [s|e]] eqn:Er.
  - destruct (read_text_ok _ _ _ _ Er) as [-> (f & Hf & Hd & Hr)].
    cbv zeta. set (s' := apply_all ALL_REPLACEMENTS s).
    set (changes := fired ALL_REPLACEMENTS s).
    destruct (str_eqb s' s).
    + intros H; injection H as <- _. reflexivity.
    + destruct (write_text p s' _) as [w2 [[]|e]] eqn:Ew.
      * destruct (write_text_ok _ _ _ _ f _ Ew Hf) as [fs' [S ->]].
        intros H; injection H as <- _. cbn [fs say_all log] in *.
        assert (L : lookup (fs w) p = Some (File f)).
        { unfold file_at in Hf.
          destruct (lookup (fs w) p) as [[f0|]|]; congruence. }
        apply (store_over_file_walk p f _ (fs w) fs' L S).
      * destruct (write_text_events _ _ _ _ _ Ew) as (_ & _ & Hw).
        intros H; injection H as <- _. cbn [fs say say_all].
        now rewrite (Hw e eq_refl).
  - destruct (read_text_events _ _ _ _ Er) as (Hfs & _).
    intros H; injection H as <- _. cbn [fs say say_all]. now rewrite Hfs.
Qed.

Lemma find_rust_files_result (root_dir : path) (w : world) :
  snd (find_rust_files root_dir w) =
  Ok (flat_map
        (fun '(root, dirs, files) =>
           map (fun file => root ++ [file]) (filter is_rust_file files))
        (match option_map (os_walk keep_dir root_dir) (lookup (fs w) root_dir)
         with
         | Some l => l
         | None => []
         end)).
Proof.
  unfold find_rust_files. cbn [snd]. now destruct (lookup (fs w) root_dir).
Qed.

(** X11: migrating a file never changes which files are candidates:
    after a call of [process_file], on any path and whatever it did,
    [find_rust_files] returns from any root the list it returned
    before. *)
Theorem candidates_stable (file_path root_dir : path) (w : world) :
  snd (find_rust_files root_dir (fst (process_file file_path w))) =
  snd (find_rust_files root_dir w).
Proof.
  rewrite !find_rust_files_result.
  destruct (process_file file_path w) as [w' r] eqn:E. cbn [fst].
  now rewrite (process_file_same_walk _ _ _ _ E root_dir keep_dir root_dir).
Qed.

(** ** A whole run of [main] *)

Lemma print_bind {A : Type} (l : line) (k : unit -> IO A) (w : world) :
  bind (print l) k w = k tt (say l w).
Proof. reflexivity. Qed.

Lemma say_all_say_all (a b : list line) (w : world) :
  say_all b (say_all a w) = say_all (a ++ b) w.
Proof. unfold say_all. cbn. now rewrite <- app_assoc. Qed.

Lemma say_say_all (l : line) (a : list line) (w : world) :
  say l (say_all a w) = say_all (a ++ [l]) w.
Proof. apply say_all_say_all. Qed.

Lemma say_as_say_all (l : line) (w : world) : say l w = say_all [l] w.
Proof. reflexivity. Qed.

(** [main] on a source directory that is there: the walk, the loop over
    what it found, and the lines around them. *)
Lemma main_run (script_dir : path) (w : world) (top : node) :
  let src_dir := script_dir ++ [lit "admin-dioxus"; lit "src"] in
  let files := rust_files_of src_dir top in
  lookup (fs w) src_dir = Some top ->
  main script_dir w =
  match
    process_all files
      (mkWorld (fs w)
         ((events w ++ [EvStat src_dir]) ++
          map (fun t => EvScandir (fst (fst t)))
            (os_walk keep_dir src_dir top))
         (stdout w ++ header_lines src_dir ++ [Found (length files); Blank]))
  with
  | (w2, Ok n) => (say_all (footer_lines n (length files)) w2, Ok tt)
  | (w2, Raise e) => (w2, Raise e)
  end.
Proof.
  intros src_dir files. destruct w as [f ev out]. cbn [fs events stdout].
  intros H.
  cbv beta iota zeta delta
    [main bind path_exists print say say_all log fs events stdout].
  fold src_dir. rewrite H.
  cbv beta iota zeta delta
    [negb find_rust_files bind print say say_all fs events stdout].
  rewrite H. fold (rust_files_of src_dir top). fold files.
  unfold header_lines. rewrite <- !app_assoc. cbn [app].
  match goal with
  | |- context [process_all files ?x] => set (w1 := x)
  end.
  destruct (process_all files w1) as [w2 [n|e]]; [|reflexivity].
  destruct w2 as [f2 ev2 out2]. unfold footer_lines.
  cbv beta iota zeta delta [fs events stdout].
  rewrite <- !app_assoc. reflexivity.
Qed.

Lemma process_all_lines (files : list path) :
  forall (w w' : world) (n : nat),
    process_all files w = (w', Ok n) ->
    exists out,
      stdout w' = stdout w ++ out /\
      length (filter is_updated out) = n /\ n <= length files.
Proof.
  induction files as [|f files IH]; intros w w' n.
  - cbn. intros H; injection H as <- <-. exists []. rewrite app_nil_r.
    now repeat split.
  - rewrite process_all_cons.
    destruct (process_file_returns f w) as [w1 [b E]]. rewrite E.
    destruct (process_file_effect _ _ _ _ E) as ((o1 & Ho1 & U1 & _) & _).
    destruct b.
    + destruct (process_all files (say Blank w1)) as [w2 [m|e]] eqn:E2;
        [|discriminate].
      intros H; injection H as <- <-.
      destruct (IH _ _ _ E2) as (o2 & Ho2 & U2 & L2).
      exists (o1 ++ [Blank] ++ o2). cbn [stdout say say_all] in Ho2.
      rewrite Ho2, Ho1, !filter_app, !length_app, <- !app_assoc.
      cbn [filter is_updated length app]. repeat split; lia.
    + intros H. destruct (IH _ _ _ H) as (o2 & Ho2 & U2 & L2).
      exists (o1 ++ o2).
      rewrite Ho2, Ho1, !filter_app, !length_app, <- !app_assoc.
      cbn [length]. repeat split; lia.
Qed.

Lemma process_all_writes (files : list path) :
  forall (w w' : world) (n : nat),
    process_all files w = (w', Ok n) ->
    exists ws,
      opened_w (events w') = opened_w (events w) ++ ws /\ incl ws files.
Proof.
  induction files as [|f files IH]; intros w w' n.
  - cbn. intros H; injection H as <- _. exists []. rewrite app_nil_r.
    now split.
  - rewrite process_all_cons.
    destruct (process_file_returns f w) as [w1 [b E]]. rewrite E.
    destruct (process_file_effect _ _ _ _ E) as (_ & (s1 & Hs1 & I1) & _).
    assert (R : forall w2 m,
              process_all files w2 = (w', Ok m) -> events w2 = events w1 ->
              exists ws,
                opened_w (events w') = opened_w (events w) ++ ws /\
                incl ws (f :: files)).
    { intros w2 m H Hev. destruct (IH _ _ _ H) as (s2 & Hs2 & I2).
      exists (s1 ++ s2). rewrite Hs2, Hev, Hs1, <- app_assoc.
      split; [reflexivity|]. apply incl_app.
      - intros x Hx. apply I1 in Hx as [<-|[]]. now left.
      - now apply incl_tl. }
    destruct b.
    + destruct (process_all files (say Blank w1)) as [w2 [m|e]] eqn:E2;
        [|discriminate].
      intros H; injection H as <- _. now apply (R _ _ E2).
    + intros H. now apply (R _ _ H).
Qed.

Lemma process_all_same_walk (files : list path) :
  forall (w w' : world) (n : nat),
    process_all files w = (w', Ok n) ->
    forall q keep top,
      option_map (os_walk keep top) (lookup (fs w') q) =
      option_map (os_walk keep top) (lookup (fs w) q).
Proof.
  induction files as [|f files IH]; intros w w' n.
  - cbn. intros H; injection H as <- _. reflexivity.
  - rewrite process_all_cons.
    destruct (process_file_returns f w) as [w1 [b E]]. rewrite E.
    pose proof (process_file_same_walk _ _ _ _ E) as W1.
    destruct b.
    + destruct (process_all files (say Blank w1)) as [w2 [m|e]] eqn:E2;
        [|discriminate].
      intros H; injection H as <- _. intros q keep top.
      rewrite (IH _ _ _ E2). apply W1.
    + intros H q keep top. rewrite (IH _ _ _ H). apply W1.
Qed.

Lemma scandir_not_open (l : list (path * list str * list str)) :
  opened_r (map (fun t => EvScandir (fst (fst t))) l) = [] /\
  opened_w (map (fun t => EvScandir (fst (fst t))) l) = [].
Proof. induction l as [|t l [I1 I2]]; [now split | cbn; now split]. Qed.

Lemma rust_files_of_same (top top' : node) (src_dir : path) :
  os_walk keep_dir src_dir top' = os_walk keep_dir src_dir top ->
  rust_files_of src_dir top' = rust_files_of src_dir top.
Proof. unfold rust_files_of. now intros ->. Qed.

(** X9: [main] can be run again safely: a second run right after a first
    one finds the same number of files, prints no ["Updated"] line,
    reports 0 updated, and leaves every file as the first run left
    it. *)
Theorem main_rerun (script_dir : path) (w w1 : world) (top : node) :
  lookup (fs w) (script_dir ++ [lit "admin-dioxus"; lit "src"]) = Some top ->
  main script_dir w = (w1, Ok tt) ->
  exists w2 rust_files out,
    snd (find_rust_files (script_dir ++ [lit "admin-dioxus"; lit "src"]) w) =
      Ok rust_files /\
    main script_dir w1 = (w2, Ok tt) /\
    fs w2 = fs w1 /\
    stdout w2 = stdout w1 ++ out /\
    In (Found (length rust_files)) out /\
    In (Summary 0 (length rust_files)) out /\
    filter is_updated out = [].
Proof.
  intros H M. rewrite (main_run script_dir w top H) in M.
  set (src_dir := script_dir ++ [lit "admin-dioxus"; lit "src"]) in *.
  set (files := rust_files_of src_dir top) in *.
  match type of M with
  | context [process_all files ?x] => set (wa := x) in M
  end.
  destruct (process_all files wa) as [wb [n|e]] eqn:E; [|discriminate].
  injection M as <-.
  destruct (process_all_settles files _ _ _ E) as [St _].
  pose proof (process_all_same_walk files _ _ _ E) as Sw.
  assert (Hfa : fs wa = fs w) by reflexivity. rewrite Hfa in Sw.
  assert (T : exists top',
             lookup (fs wb) src_dir = Some top' /\
             os_walk keep_dir src_dir top' = os_walk keep_dir src_dir top).
  { specialize (Sw src_dir keep_dir src_dir). rewrite H in Sw.
    destruct (lookup (fs wb) src_dir) as [top'|]; [|discriminate].
    exists top'. split; [reflexivity|]. cbn in Sw. now injection Sw. }
  destruct T as (top' & H' & Wk).
  rewrite (main_run script_dir
             (say_all (footer_lines n (length files)) wb) top' H').
  fold src_dir.
  rewrite (rust_files_of_same top top' src_dir Wk). fold files.
  match goal with
  | |- context [process_all files ?x] => set (wc := x)
  end.
  destruct (process_all_nothing files wc) as [wd [E2 Hfs]].
  { intros p Hp. now apply St. }
  rewrite E2.
  destruct (process_all_lines _ _ _ _ E2) as (o & Ho & U & _).
  apply length_zero_iff_nil in U.
  exists (say_all (footer_lines 0 (length files)) wd), files,
    (header_lines src_dir ++ [Found (length files); Blank] ++ o ++
     footer_lines 0 (length files)).
  cbn [fs stdout say_all]. unfold wc in Ho, Hfs. cbn [fs stdout say_all] in *.
  split. { unfold find_rust_files. cbn [snd]. now rewrite H. }
  split; [reflexivity|]. split; [exact Hfs|].
  split. { rewrite Ho, <- !app_assoc. reflexivity. }
  split. { apply in_or_app. right. now left. }
  split. { apply in_or_app. right. apply in_or_app. right.
           apply in_or_app. right. right. right. now left. }
  rewrite !filter_app, U. reflexivity.
Qed.

Lemma main_rerun_witness :
  exists w2 rust_files out,
    snd (find_rust_files ([] ++ [lit "admin-dioxus"; lit "src"]) ex_world) =
      Ok rust_files /\
    main [] (fst (main [] ex_world)) = (w2, Ok tt) /\
    fs w2 = fs (fst (main [] ex_world)) /\
    stdout w2 = stdout (fst (main [] ex_world)) ++ out /\
    In (Found (length rust_files)) out /\
    In (Summary 0 (length rust_files)) out /\
    filter is_updated out = [].
Proof.
  apply (main_rerun [] ex_world (fst (main [] ex_world))
           (Dir [ (lit "main.rs", ex_plain ex_main);
                  (lit "lib.rs", ex_plain (lit "pub mod views;"));
                  (lit "raw.rs", File (mkFile Undecodable true true));
                  (lit "notes.txt", ex_plain (lit "use crate::store::x"));
                  (lit "target", Dir [ (lit "gen.rs", ex_plain ex_main) ]);
                  (lit "views",
                   Dir [ (lit "home.rs",
                          ex_plain (lit "use crate::ui::components::form;")) ])
                ])).
  - reflexivity.
  - vm_compute. reflexivity.
Defined.



(** ** No candidate twice *)

Lemma distinct_names_dir (es : list (str * node)) :
  distinct_names (Dir es) = true ->
  NoDup (map fst es) /\ Forall (fun e => distinct_names (snd e) = true) es.
Proof.
  cbn [distinct_names]. intros H. apply andb_true_iff in H as [H1 H2].
  split; [now apply nodupb_NoDup|]. clear H1.
  induction es as [|[d c] es IH]; constructor.
  - now apply andb_true_iff in H2 as [H2 _].
  - apply IH. now apply andb_true_iff in H2 as [_ H2].
Qed.

Lemma NoDup_map_fst_filter (f : str * node -> bool) (es : list (str * node)) :
  NoDup (map fst es) -> NoDup (map fst (filter f es)).
Proof.
  induction es as [|e es IH]; cbn [map filter]; intros H; [constructor|].
  inversion H as [|x l Hn Hd]; subst.
  destruct (f e); [|now apply IH]. cbn [map]. constructor; [|now apply IH].
  intros Hin. apply Hn. apply in_map_iff in Hin as [e' [E Hin]].
  apply filter_In in Hin as [Hin _]. rewrite <- E. now apply in_map.
Qed.

Lemma NoDup_map_injective {A B : Type} (f : A -> B) (l : list A) :
  (forall a b, f a = f b -> a = b) -> NoDup l -> NoDup (map f l).
Proof.
  intros Hf H. induction H as [|x l Hn _ IH]; cbn [map]; constructor;
    [|exact IH].
  intros Hin. apply in_map_iff in Hin as [y [E Hy]].
  apply Hf in E. now subst y.
Qed.

Lemma rust_files_of_prefix (n : node) (top file_path : path) :
  In file_path (rust_files_of top n) ->
  exists rest, file_path = top ++ rest /\ rest <> [].
Proof.
  intros H. apply rust_files_of_iff in H as (dirs & name & -> & _).
  exists (dirs ++ [name]). split; [reflexivity | now destruct dirs].
Qed.

Lemma rust_files_of_nodup (n : node) :
  distinct_names n = true -> forall top, NoDup (rust_files_of top n).
Proof.
  induction n as [f|es IH] using node_induction; intros Hd top.
  - constructor.
  - destruct (distinct_names_dir es Hd) as [Nd Hall].
    rewrite rust_files_of_dir.
    assert (NA : NoDup (map (fun file => top ++ [file])
                          (filter is_rust_file (file_names es)))).
    { apply NoDup_map_injective.
      - intros a b E. apply app_inv_head in E. now injection E.
      - apply NoDup_filter. unfold file_names.
        now apply NoDup_map_fst_filter. }
    assert (NB : NoDup
                   (flat_map
                      (fun e =>
                         if is_dir (snd e) && keep_dir (fst e)
                         then rust_files_of (top ++ [fst e]) (snd e) else [])
                      es)).
    { clear NA Hd. induction es as [|[d c] es IHes]; [constructor|].
      rewrite flat_map_step. cbn [fst snd].
      inversion Nd as [|x l Hn Nd']; subst.
      inversion Hall as [|x l Hc Hall']; subst.
      inversion IH as [|x l IHc IH']; subst. cbn [snd] in Hc, IHc.
      specialize (IHes IH' Nd' Hall').
      destruct (is_dir c && keep_dir d); [|exact IHes].
      apply NoDup_app; [now apply IHc | exact IHes|].
      intros p Hp Hq. apply rust_files_of_prefix in Hp as (r1 & -> & _).
      apply in_flat_map in Hq as [[d' c'] [Hin Hq]]. cbn [fst snd] in Hq.
      destruct (is_dir c' && keep_dir d'); [|destruct Hq].
      apply rust_files_of_prefix in Hq as (r2 & E & _).
      rewrite <- !app_assoc in E. apply app_inv_head in E.
      cbn [app] in E. injection E as -> _.
      apply Hn. cbn [map]. apply in_map_iff. now exists (d', c'). }
    apply NoDup_app; [exact NA | exact NB|].
    intros p Hp Hq. apply in_map_iff in Hp as [file [<- _]].
    apply in_flat_map in Hq as [[d c] [_ Hq]]. cbn [fst snd] in Hq.
    destruct (is_dir c && keep_dir d); [|destruct Hq].
    apply rust_files_of_prefix in Hq as (r & E & Hr).
    rewrite <- app_assoc in E. apply app_inv_head in E. cbn [app] in E.
    injection E as _ E. destruct r; [now apply Hr | discriminate].
Qed.

(** X13: when no directory of the tree has two entries of the same
    name, [find_rust_files] returns no path twice, so the loop of [main]
    takes each file once. *)
Theorem candidates_nodup (root_dir : path) (w : world) (top : node) :
  lookup (fs w) root_dir = Some top ->
  distinct_names top = true ->
  exists w' rust_files,
    find_rust_files root_dir w = (w', Ok rust_files) /\ NoDup rust_files.
Proof.
  intros H Hd. destruct (find_rust_files_run root_dir w) as [evs [E _]].
  rewrite H in E. eexists. eexists. split; [exact E|].
  now apply rust_files_of_nodup.
Qed.

Lemma candidates_nodup_witness :
  exists w' rust_files,
    find_rust_files ex_src ex_world = (w', Ok rust_files) /\
    NoDup rust_files.
Proof.
  apply (candidates_nodup ex_src ex_world
           (Dir [ (lit "main.rs", ex_plain ex_main);
                  (lit "lib.rs", ex_plain (lit "pub mod views;"));
                  (lit "raw.rs", File (mkFile Undecodable true true));
                  (lit "notes.txt", ex_plain (lit "use crate::store::x"));
                  (lit "target", Dir [ (lit "gen.rs", ex_plain ex_main) ]);
                  (lit "views",
                   Dir [ (lit "home.rs",
                          ex_plain (lit "use crate::ui::components::form;")) ])
                ])).
  - reflexivity.
  - vm_compute. reflexivity.
Defined.

(* ================================================================= *)
(** * The script on a console that cannot print every line *)

(** Every line of [changes_made] is ASCII. *)
Lemma table_lines_ascii :
  forallb
    (fun rl => forallb (fun c => (c <? 128)%N) (change_line (fst rl) (snd rl)))
    ALL_REPLACEMENTS = true.
Proof. by_computation. Qed.

Section ConsoleFacts.

Variable encodes : char -> bool.
Variable message : exn -> path -> str.

Lemma print_on_bind {A : Type} (l : line) (k : unit -> IO A) (w : world) :
  bind (print_on encodes message l) k w =
  if printable encodes message l then k tt (say l w)
  else (w, Raise UnicodeEncodeError).
Proof.
  unfold bind, print_on. now destruct (printable encodes message l).
Qed.

Lemma blank_printable : printable encodes message Blank = true.
Proof. reflexivity. Qed.

(** The lines of [changes_made] go out one by one, up to the first one
    that cannot be encoded. *)
Lemma print_changes_on (ls : list str) (w : world) :
  exists shown r,
    for_each ls (fun change _ => print_on encodes message (Plain change)) tt w =
      (say_all (map Plain shown) w, r) /\
    (forallb (fun c => printable encodes message (Plain c)) ls = true ->
     shown = ls /\ r = Ok tt) /\
    (forallb (fun c => printable encodes message (Plain c)) ls = false ->
     r = Raise UnicodeEncodeError).
Proof.
  revert w; induction ls as [|l ls IH]; intros w.
  - exists [], (Ok tt). split.
    + unfold say_all. cbn. rewrite app_nil_r. now destruct w.
    + split; [now split | discriminate].
  - rewrite for_each_cons. unfold print_on at 1. cbn [forallb].
    destruct (printable encodes message (Plain l)) eqn:P.
    + destruct (IH (say (Plain l) w)) as (shown & r & E & H1 & H2).
      exists (l :: shown), r. rewrite E. split.
      * unfold say. now rewrite say_all_say_all.
      * cbn [andb]. split; [|exact H2].
        intros H. destruct (H1 H) as [-> ->]. now split.
    + exists [], (Raise UnicodeEncodeError). split.
      * unfold say_all. cbn. rewrite app_nil_r. now destruct w.
      * split; [discriminate | reflexivity].
Qed.

Hypothesis ascii : encodes_ascii encodes.

Lemma changes_printable (s : str) :
  forallb (fun c => printable encodes message (Plain c))
    (fired ALL_REPLACEMENTS s) = true.
Proof.
  apply forallb_forall. intros l Hl. apply fired_incl in Hl.
  apply in_map_iff in Hl as [rl [<- Hin]].
  pose proof table_lines_ascii as T. rewrite forallb_forall in T.
  specialize (T rl Hin). unfold printable. cbn [line_text].
  apply forallb_forall. intros c Hc. apply ascii.
  rewrite forallb_forall in T. now apply T.
Qed.

(** What the [try] block does, case by case. *)
Lemma process_file_try_on_run (file_path : path) (w : world) :
  process_file_try_on encodes message file_path w =
  match read_text file_path w with
  | (w1, Raise e) => (w1, Raise e)
  | (w1, Ok s) =>
      let s' := apply_all ALL_REPLACEMENTS s in
      if str_eqb s' s then (w1, Ok false)
      else
        match write_text file_path s' w1 with
        | (w2, Raise e) => (w2, Raise e)
        | (w2, Ok _) =>
            if printable encodes message (Updated file_path) then
              (say_all (Updated file_path
                          :: map Plain (fired ALL_REPLACEMENTS s)) w2,
               Ok true)
            else (w2, Raise UnicodeEncodeError)
        end
  end.
Proof.
  unfold process_file_try_on. unfold bind at 1.
  destruct (read_text file_path w) as [w1 [s|e]]; [|reflexivity].
  unfold bind at 1. rewrite substitute_run, literal_substitute_eq.
  cbv zeta. set (changes := fired ALL_REPLACEMENTS s).
  set (s' := apply_all ALL_REPLACEMENTS s).
  destruct (str_eqb s' s); cbn [negb]; [reflexivity|].
  unfold bind at 1.
  destruct (write_text file_path s' w1) as [w2 [[]|e]]; [|reflexivity].
  rewrite print_on_bind.
  destruct (printable encodes message (Updated file_path)); [|reflexivity].
  unfold bind at 1.
  destruct (print_changes_on changes (say (Updated file_path) w2))
    as (shown & r & -> & H1 & _).
  destruct (H1 (changes_printable s)) as [-> ->].
  unfold ret, say. now rewrite say_all_say_all.
Qed.

Lemma report_on_run (file_path : path) (e : exn) (w : world) :
  report_on encodes message file_path e w =
  if printable encodes message (Error_processing file_path e)
  then (say (Error_processing file_path e) w, Ok false)
  else (w, Raise UnicodeEncodeError).
Proof. unfold report_on. now rewrite print_on_bind. Qed.

(** A call that returns, seen from outside: what it printed, what it
    opened, and when it says [True]. *)
Lemma process_file_on_effect (p : path) (w w' : world) (b : bool) :
  process_file_on encodes message p w = (w', Ok b) ->
  (exists out,
     stdout w' = stdout w ++ out /\
     length (filter is_updated out) = (if b then 1 else 0) /\
     length (filter is_blank out) = 0 /\
     length (filter is_error out) <= (if b then 0 else 1)) /\
  (exists ws,
     opened_w (events w') = opened_w (events w) ++ ws /\ incl ws [p]) /\
  opened_r (events w') = opened_r (events w) ++ [p] /\
  (b = true <->
   updatable (fs w) p = true /\
   printable encodes message (Updated p) = true).
Proof.
  unfold process_file_on, try_except. rewrite process_file_try_on_run.
  unfold updatable.
  assert (Rep : forall e w1,
            report_on encodes message p e w1 = (w', Ok b) ->
            b = false /\ w' = say (Error_processing p e) w1).
  { intros e w1. rewrite report_on_run.
    destruct (printable _ _ _); [|discriminate].
    intros H; injection H as <- <-. now split. }
  destruct (read_text p w) as [w1 [s|e]] eqn:Er.
  - destruct (read_text_ok _ _ _ _ Er) as [-> (f & Hf & Hd & Hr)].
    rewrite Hf, Hd, Hr. cbv zeta. rewrite changed_iff_pattern.
    set (changes := fired ALL_REPLACEMENTS s).
    set (s' := apply_all ALL_REPLACEMENTS s).
    destruct (has_pattern s) eqn:Hp; cbn [negb andb].
    + destruct (write_text_existing p s' (log (EvOpen p R) w) f Hf)
        as [w2 Ew].
      rewrite Ew.
      destruct (write_text_events _ _ _ _ _ Ew) as (Ho & Ev & _).
      cbn [events stdout log] in Ho, Ev.
      assert (Rw : opened_r (events w2) = opened_r (events w) ++ [p] /\
                   opened_w (events w2) = opened_w (events w) ++ [p]).
      { rewrite Ev, !opened_r_app, !opened_w_app. cbn. 
        now rewrite !app_nil_r. }
      destruct Rw as [Rr Rw].
      destruct (writable f).
      * destruct (printable encodes message (Updated p)) eqn:Pu.
        -- intros H; injection H as <- <-. cbn [events stdout say_all].
           rewrite Ho. split.
           { exists (Updated p :: map Plain changes).
             split; [reflexivity|].
             destruct (filter_plain_lines changes) as (F1 & F2 & F3).
             change (Updated p :: map Plain changes)
               with ([Updated p] ++ map Plain changes).
             rewrite !filter_app, F1, F2, F3. cbn. now repeat split. }
           split; [exists [p]; split; [exact Rw | apply incl_refl]|].
           split; [exact Rr|]. now split.
        -- intros H. apply Rep in H as [-> ->].
           cbn [events stdout say say_all]. rewrite Ho. split.
           { eexists. split; [reflexivity|]. cbn. repeat split; lia. }
           split; [exists [p]; split; [exact Rw | apply incl_refl]|].
           split; [exact Rr|]. split; [discriminate|].
           intros [_ H]. discriminate.
      * intros H. apply Rep in H as [-> ->].
        cbn [events stdout say say_all]. rewrite Ho. split.
        { eexists. split; [reflexivity|]. cbn. repeat split; lia. }
        split; [exists [p]; split; [exact Rw | apply incl_refl]|].
        split; [exact Rr|]. split; [discriminate|].
        intros [H _]. discriminate.
    + intros H; injection H as <- <-. cbn [events stdout log]. split.
      { exists []. rewrite app_nil_r. cbn. repeat split; lia. }
      rewrite opened_r_app, opened_w_app. cbn [opened_r opened_w flat_map app].
      rewrite app_nil_r.
      split; [exists []; split; [now rewrite app_nil_r | easy]|].
      split; [reflexivity|]. split; [discriminate|].
      intros [H _]. now rewrite andb_false_r in H.
  - destruct (read_text_events _ _ _ _ Er) as (Hfs & Ho & Ev).
    intros H. apply Rep in H as [-> ->]. cbn [events stdout say say_all].
    rewrite Ho, Ev, opened_r_app, opened_w_app.
    cbn [opened_r opened_w flat_map app]. rewrite app_nil_r. split.
    { eexists. split; [reflexivity|]. cbn. repeat split; lia. }
    split; [exists []; split; [now rewrite app_nil_r | easy]|].
    split; [reflexivity|]. split; [discriminate|].
    intros [H _]. revert Er H. unfold read_text, file_at. cbn [fs log].
    destruct (lookup (fs w) p) as [[f|es]|]; try discriminate.
    destruct (readable f); [|discriminate].
    destruct (data f); [discriminate|]. now rewrite andb_false_r.
Qed.

Lemma count_file_on_run (f : path) (c : nat) (w : world) :
  count_file_on encodes message f c w =
  match process_file_on encodes message f w with
  | (w1, Ok true) => (say Blank w1, Ok (c + 1))
  | (w1, Ok false) => (w1, Ok c)
  | (w1, Raise e) => (w1, Raise e)
  end.
Proof.
  unfold count_file_on. unfold bind at 1.
  destruct (process_file_on encodes message f w) as [w1 [[|]|e]];
    reflexivity.
Qed.

Lemma process_all_on_from (files : list path) (c : nat) (w : world) :
  for_each files (count_file_on encodes message) c w =
  match process_all_on encodes message files w with
  | (w', Ok n) => (w', Ok (c + n))
  | (w', Raise e) => (w', Raise e)
  end.
Proof.
  unfold process_all_on. revert c w; induction files as [|f files IH];
    intros c w.
  - cbn. unfold ret. now rewrite Nat.add_0_r.
  - rewrite !for_each_cons, !count_file_on_run.
    destruct (process_file_on encodes message f w) as [w1 [[|]|e]];
      [| |reflexivity].
    + rewrite (IH (c + 1)), (IH (0 + 1)).
      destruct (for_each files _ 0 (say Blank w1)) as [w2 [n|e]];
        [|reflexivity].
      f_equal. f_equal. lia.
    + rewrite (IH c), (IH 0).
      now destruct (for_each files _ 0 w1) as [w2 [n|e]].
Qed.

Lemma process_all_on_cons (f : path) (files : list path) (w : world) :
  process_all_on encodes message (f :: files) w =
  match process_file_on encodes message f w with
  | (w1, Ok true) =>
      match process_all_on encodes message files (say Blank w1) with
      | (w2, Ok n) => (w2, Ok (S n))
      | (w2, Raise e) => (w2, Raise e)
      end
  | (w1, Ok false) => process_all_on encodes message files w1
  | (w1, Raise e) => (w1, Raise e)
  end.
Proof.
  unfold process_all_on at 1. rewrite for_each_cons, count_file_on_run.
  destruct (process_file_on encodes message f w) as [w1 [[|]|e]];
    [| |reflexivity].
  - now rewrite process_all_on_from.
  - rewrite process_all_on_from.
    now destruct (process_all_on encodes message files w1) as [w2 [n|e]].
Qed.

(** A loop that returns, seen from outside. *)
Lemma process_all_on_trail (files : list path) :
  forall (w w' : world) (n : nat),
    process_all_on encodes message files w = (w', Ok n) ->
    (exists out,
       stdout w' = stdout w ++ out /\
       length (filter is_updated out) = n /\ n <= length files) /\
    opened_r (events w') = opened_r (events w) ++ files /\
    (exists ws,
       opened_w (events w') = opened_w (events w) ++ ws /\ incl ws files).
Proof.
  induction files as [|f files IH]; intros w w' n.
  - cbn. intros H; injection H as <- <-. rewrite !app_nil_r. split.
    + exists []. rewrite app_nil_r. now repeat split.
    + split; [reflexivity|]. exists []. rewrite app_nil_r. now split.
  - rewrite process_all_on_cons.
    destruct (process_file_on encodes message f w) as [w1 [b|e]] eqn:E;
      [|discriminate].
    destruct (process_file_on_effect _ _ _ _ E)
      as ((o1 & Ho1 & U1 & _) & (s1 & Hs1 & I1) & R1 & _).
    assert (R : forall w2 m k,
              process_all_on encodes message files w2 = (w', Ok m) ->
              events w2 = events w1 ->
              stdout w2 = stdout w1 ++ k -> filter is_updated k = [] ->
              (exists out,
                 stdout w' = stdout w ++ out /\
                 length (filter is_updated out) =
                   (if b then 1 else 0) + m /\
                 m <= length files) /\
              opened_r (events w') = opened_r (events w) ++ f :: files /\
              (exists ws,
                 opened_w (events w') = opened_w (events w) ++ ws /\
                 incl ws (f :: files))).
    { intros w2 m k H Hev Hout Hk.
      destruct (IH _ _ _ H) as ((o2 & Ho2 & U2 & L2) & R2 & (s2 & Hs2 & I2)).
      split; [|split].
      - exists (o1 ++ k ++ o2). rewrite Ho2, Hout, Ho1, <- !app_assoc.
        split; [reflexivity|]. rewrite !filter_app, Hk, !length_app, U1, U2.
        cbn [length]. split; lia.
      - rewrite R2, Hev, R1, <- app_assoc. reflexivity.
      - exists (s1 ++ s2). rewrite Hs2, Hev, Hs1, <- app_assoc.
        split; [reflexivity|]. apply incl_app.
        + intros x Hx. apply I1 in Hx as [<-|[]]. now left.
        + now apply incl_tl. }
    destruct b.
    + destruct (process_all_on encodes message files (say Blank w1))
        as [w2 [m|e]] eqn:E2; [|discriminate].
      intros H; injection H as <- <-.
      destruct (R _ _ [Blank] E2 eq_refl eq_refl eq_refl)
        as ((out & Ho & U & L) & Rr & Rw).
      split; [|now split]. exists out. repeat split; trivial.
      cbn [length]. lia.
    + intros H.
      destruct (R w1 n [] H eq_refl) as ((out & Ho & U & L) & Rr & Rw);
        [now rewrite app_nil_r | reflexivity |].
      split; [|now split]. exists out. repeat split; trivial.
      cbn [length]. lia.
Qed.

(** A run of [main] that returns, with the source directory there: the
    walk, the loop over what it found, and the lines around them. *)
Lemma main_on_returned (script_dir : path) (w w' : world) (top : node) :
  let src_dir := script_dir ++ [lit "admin-dioxus"; lit "src"] in
  let files := rust_files_of src_dir top in
  lookup (fs w) src_dir = Some top ->
  main_on encodes message script_dir w = (w', Ok tt) ->
  exists w2 n,
    process_all_on encodes message files
      (mkWorld (fs w)
         ((events w ++ [EvStat src_dir]) ++
          map (fun t => EvScandir (fst (fst t)))
            (os_walk keep_dir src_dir top))
         (stdout w ++ header_lines src_dir ++ [Found (length files); Blank]))
    = (w2, Ok n) /\
    w' = say_all (footer_lines n (length files)) w2.
Proof.
  intros src_dir files H M. unfold main_on in M. cbv zeta in M.
  fold src_dir in M. unfold bind at 1 in M. unfold path_exists at 1 in M.
  rewrite H in M. cbn [negb] in M.
  do 5 (rewrite print_on_bind in M;
        match type of M with
        | (if ?c then _ else _) = _ => destruct c; [|discriminate]
        end).
  unfold bind at 1 in M. unfold find_rust_files at 1 in M.
  rewrite !say_as_say_all, !say_all_say_all in M.
  cbn [fs events stdout say_all log app] in M.
  rewrite H in M. fold (rust_files_of src_dir top) in M. fold files in M.
  do 2 (rewrite print_on_bind in M;
        match type of M with
        | (if ?c then _ else _) = _ => destruct c; [|discriminate]
        end).
  rewrite !say_as_say_all, !say_all_say_all in M.
  unfold say_all at 1 in M. cbn [fs events stdout app] in M.
  unfold bind at 1 in M.
  match type of M with
  | context [process_all_on encodes message files ?x] => set (w1 := x) in M
  end.
  destruct (process_all_on encodes message files w1) as [w2 [n|e]] eqn:E;
    [|discriminate].
  exists w2, n. split.
  - rewrite <- E. unfold w1, header_lines. f_equal. f_equal.
    now rewrite <- !app_assoc.
  - do 12 (rewrite print_on_bind in M;
           match type of M with
           | (if ?c then _ else _) = _ => destruct c; [|discriminate]
           end).
    unfold print_on in M.
    match type of M with
    | (if ?c then _ else _) = _ => destruct c; [|discriminate]
    end.
    injection M as <-. rewrite !say_as_say_all, !say_all_say_all.
    reflexivity.
Qed.

End ConsoleFacts.

Lemma utf8_ascii : encodes_ascii utf8_encodes.
Proof.
  intros c H. apply N.ltb_lt in H. unfold utf8_encodes.
  assert (A : (c <=? 1114111)%N = true) by (apply N.leb_le; lia).
  assert (B : (55296 <=? c)%N = false) by (apply N.leb_gt; lia).
  now rewrite A, B.
Qed.

(** C4: a file that raises while it is processed does stop the loop when
    its error line cannot be printed.  On a UTF-8 console, with a file
    whose name is not valid UTF-8 and whose bytes do not decode, followed
    by a file to migrate: the [try] block raises [UnicodeDecodeError],
    the [print] of the [except] block raises [UnicodeEncodeError] on the
    file name, [process_file] raises instead of returning [False], the
    loop stops there with nothing printed, and the second file, which a
    loop over it alone updates, is never opened; [main] on that source
    directory ends the same way. *)
Theorem handler_print_aborts_loop (message : exn -> path -> str) :
  process_file_try_on utf8_encodes message [lit "src"; odd_name] odd_world =
    (log (EvOpen [lit "src"; odd_name] R) odd_world,
     Raise UnicodeDecodeError) /\
  process_file_on utf8_encodes message [lit "src"; odd_name] odd_world =
    (log (EvOpen [lit "src"; odd_name] R) odd_world,
     Raise UnicodeEncodeError) /\
  process_all_on utf8_encodes message
    [[lit "src"; odd_name]; [lit "src"; lit "b.rs"]] odd_world =
    (log (EvOpen [lit "src"; odd_name] R) odd_world,
     Raise UnicodeEncodeError) /\
  snd (process_all_on utf8_encodes message [[lit "src"; lit "b.rs"]]
         odd_world) = Ok 1 /\
  (let '(w', r) :=
     main_on utf8_encodes message []
       (mkWorld (Dir [(lit "admin-dioxus", odd_tree)]) [] []) in
   r = Raise UnicodeEncodeError /\
   opened_r (events w') = [[lit "admin-dioxus"; lit "src"; odd_name]] /\
   fs w' = Dir [(lit "admin-dioxus", odd_tree)]).
Proof.
  split; [reflexivity|]. split; [vm_compute; reflexivity|].
  split; [vm_compute; reflexivity|]. split; [vm_compute; reflexivity|].
  vm_compute. now repeat split.
Qed.



(** X5: when the loop returns, its count is the number of ["Updated"]
    lines it printed, each followed later by one blank line; every file
    is either updated, or reported with an error line, or left as it is
    in silence, so updates and errors together never exceed the number
    of files. *)
Theorem process_all_on_accounting (encodes : char -> bool)
  (message : exn -> path -> str) (files : list path) :
  encodes_ascii encodes ->
  forall (w w' : world) (updated_count : nat),
    process_all_on encodes message files w = (w', Ok updated_count) ->
    exists out,
      stdout w' = stdout w ++ out /\
      length (filter is_updated out) = updated_count /\
      length (filter is_blank out) = updated_count /\
      updated_count + length (filter is_error out) <= length files.
Proof.
  intros A. induction files as [|f files IH]; intros w w' n.
  - cbn. intros H; injection H as <- <-. exists []. rewrite app_nil_r.
    cbn. repeat split; lia.
  - rewrite process_all_on_cons.
    destruct (process_file_on encodes message f w) as [w1 [b|e]] eqn:E;
      [|discriminate].
    destruct (process_file_on_effect encodes message A _ _ _ _ E)
      as ((o1 & Ho1 & U1 & B1 & E1) & _).
    destruct b.
    + destruct (process_all_on encodes message files (say Blank w1))
        as [w2 [m|e]] eqn:E2; [|discriminate].
      intros H; injection H as <- <-.
      destruct (IH _ _ _ E2) as (o2 & Ho2 & U2 & B2 & E2').
      exists (o1 ++ [Blank] ++ o2). cbn [stdout say say_all] in Ho2.
      rewrite Ho2, Ho1, !filter_app, !length_app, <- !app_assoc.
      cbn [filter is_updated is_blank is_error length app].
      cbn [length]. repeat split; lia.
    + intros H. destruct (IH _ _ _ H) as (o2 & Ho2 & U2 & B2 & E2).
      exists (o1 ++ o2).
      rewrite Ho2, Ho1, !filter_app, !length_app, <- !app_assoc.
      cbn [length]. repeat split; lia.
Qed.

Lemma process_all_on_accounting_witness :
  exists out,
    stdout (fst (process_all_on utf8_encodes (fun _ _ => lit "error")
                   [ex_src ++ [lit "main.rs"]; ex_src ++ [lit "raw.rs"];
                    ex_src ++ [lit "lib.rs"]] ex_world)) =
      stdout ex_world ++ out /\
    length (filter is_updated out) = 1 /\
    length (filter is_blank out) = 1 /\
    1 + length (filter is_error out) <= 
    length [ex_src ++ [lit "main.rs"]; ex_src ++ [lit "raw.rs"];
            ex_src ++ [lit "lib.rs"]].
Proof.
  apply (process_all_on_accounting utf8_encodes (fun _ _ => lit "error")
           [ex_src ++ [lit "main.rs"]; ex_src ++ [lit "raw.rs"];
            ex_src ++ [lit "lib.rs"]] utf8_ascii ex_world).
  vm_compute. reflexivity.
Defined.

(** X8: when [main] returns with the source directory there, it has
    reported as found the number of candidates [find_rust_files] returns
    and as updated the number of ["Updated"] lines printed, which is at
    most the number found; it has opened for reading exactly the
    candidates, in order, and for writing nothing but candidates. *)
Theorem main_on_existing_root (encodes : char -> bool)
  (message : exn -> path -> str) (script_dir : path) (w w' : world)
  (top : node) :
  encodes_ascii encodes ->
  lookup (fs w) (script_dir ++ [lit "admin-dioxus"; lit "src"]) = Some top ->
  main_on encodes message script_dir w = (w', Ok tt) ->
  exists rust_files updated_count out written,
    snd (find_rust_files (script_dir ++ [lit "admin-dioxus"; lit "src"]) w) =
      Ok rust_files /\
    stdout w' = stdout w ++ out /\
    In (Found (length rust_files)) out /\
    In (Summary updated_count (length rust_files)) out /\
    length (filter is_updated out) = updated_count /\
    updated_count <= length rust_files /\
    opened_r (events w') = opened_r (events w) ++ rust_files /\
    opened_w (events w') = opened_w (events w) ++ written /\
    incl written rust_files.
Proof.
  intros A H M.
  destruct (main_on_returned encodes message script_dir w w' top H M)
    as (w2 & n & E & ->).
  set (src_dir := script_dir ++ [lit "admin-dioxus"; lit "src"]) in *.
  set (files := rust_files_of src_dir top) in *.
  destruct (process_all_on_trail encodes message A _ _ _ _ E)
    as ((o & Ho & U & L) & Hr & (ws & Hw & I)).
  destruct (scandir_not_open (os_walk keep_dir src_dir top)) as [S1 S2].
  exists files, n,
    (header_lines src_dir ++ [Found (length files); Blank] ++ o ++
     footer_lines n (length files)), ws.
  cbn [stdout events say_all]. cbn [stdout events] in Ho, Hw, Hr.
  rewrite !opened_r_app, S1 in Hr. rewrite !opened_w_app, S2 in Hw.
  cbn [opened_r opened_w flat_map app] in Hr, Hw.
  rewrite !app_nil_r in Hr, Hw.
  split. { unfold find_rust_files. cbn [snd]. now rewrite H. }
  split. { rewrite Ho, <- !app_assoc. reflexivity. }
  split. { apply in_or_app. right. now left. }
  split. { apply in_or_app. right. apply in_or_app. right.
           apply in_or_app. right. right. right. now left. }
  split.
  { rewrite !filter_app, !length_app.
    replace (length (filter is_updated (header_lines src_dir))) with 0
      by reflexivity.
    replace (length (filter is_updated (footer_lines n (length files))))
      with 0 by reflexivity.
    cbn [filter is_updated length]. lia. }
  now repeat split.
Qed.

Lemma main_on_existing_root_witness :
  exists rust_files updated_count out written,
    snd (find_rust_files ([] ++ [lit "admin-dioxus"; lit "src"]) ex_world) =
      Ok rust_files /\
    stdout (fst (main_on utf8_encodes (fun _ _ => lit "error") [] ex_world)) =
      stdout ex_world ++ out /\
    In (Found (length rust_files)) out /\
    In (Summary updated_count (length rust_files)) out /\
    length (filter is_updated out) = updated_count /\
    updated_count <= length rust_files /\
    opened_r
      (events (fst (main_on utf8_encodes (fun _ _ => lit "error") []
                      ex_world))) =
      opened_r (events ex_world) ++ rust_files /\
    opened_w
      (events (fst (main_on utf8_encodes (fun _ _ => lit "error") []
                      ex_world))) =
      opened_w (events ex_world) ++ written /\
    incl written rust_files.
Proof.
  apply (main_on_existing_root utf8_encodes (fun _ _ => lit "error") []
           ex_world
           (fst (main_on utf8_encodes (fun _ _ => lit "error") [] ex_world))
           (Dir [ (lit "main.rs", ex_plain ex_main);
                  (lit "lib.rs", ex_plain (lit "pub mod views;"));
                  (lit "raw.rs", File (mkFile Undecodable true true));
                  (lit "notes.txt", ex_plain (lit "use crate::store::x"));
                  (lit "target", Dir [ (lit "gen.rs", ex_plain ex_main) ]);
                  (lit "views",
                   Dir [ (lit "home.rs",
                          ex_plain (lit "use crate::ui::components::form;")) ])
                ])).
  - apply utf8_ascii.
  - reflexivity.
  - vm_compute. reflexivity.
Defined.

(** On a console that encodes every character the statements above are
    the script as it was embedded first. *)
Lemma process_file_on_total (message : exn -> path -> str)
  (file_path : path) (w : world) :
  process_file_on (fun _ => true) message file_path w =
  process_file file_path w.
Proof.
  assert (P : forall l, printable (fun _ => true) message l = true).
  { intros l. unfold printable. now apply forallb_forall. }
  unfold process_file_on, try_except.
  rewrite process_file_try_on_run by (intros c _; reflexivity).
  rewrite process_file_run, P.
  destruct (read_text file_path w) as [w1 [s|e]].
  - cbv zeta. destruct (str_eqb _ s); [reflexivity|].
    destruct (write_text file_path _ w1) as [w2 [[]|e]]; [reflexivity|].
    now rewrite report_on_run, P.
  - now rewrite report_on_run, P.
Qed.
